(** * AmazonMwsResource: the signed request / response pipeline

    A shallow embedding of [lib/AmazonMwsResource.js]: the GET signer of
    [_request], the transport parameters built by [makeRequest], and the
    three event handlers [_timeoutHandler], [_responseHandler] and
    [_errorHandler], with the properties the specification states about
    them.

    Conventions. A string is a sequence of 8-bit characters and strings
    are ordered by character code, which is how [sort()] orders the
    ASCII names of request parameters. An object is the list of its own
    enumerable properties in enumeration order. The object the caller
    passes as [data] lives in a store and is reached through its
    address, so that a write through one variable is seen through every
    other variable holding the same address. The libraries the resource
    calls ([qs], [crypto], [xml2json], [JSON], [utils]) are parameters.
    An event handler is a function on the state of the request, and
    what it does to the outside is appended to a trace. Of the caller's
    callback it is known whether an invocation returns or throws. *)

From Stdlib Require Import Ascii OrdersEx.
From stdpp Require Import gmap strings list sorting pretty.

Set Warnings "-register-all".

Local Open Scope string_scope.
Local Open Scope Z_scope.

(** ** JavaScript values

    Numbers are the integers the pipeline handles (timeouts, ports,
    parsed integer literals); a [Date] is its epoch time in milliseconds. *)

Inductive jsval : Type :=
| JUndefined
| JNull
| JBool (b : bool)
| JNum (z : Z)
| JStr (s : string)
| JDate (ms : Z)
| JArr (items : list jsval)
| JObj (props : list (string * jsval)).

(** Exceptions a JavaScript statement can raise. *)
Inductive jsexn : Type :=
| TypeError (msg : string)
| SyntaxError (msg : string)
| LibError (msg : string)
| PlainError (msg code : string).

(** A computation that either completes or throws. *)
Inductive result (A : Type) : Type :=
| Ok (a : A)
| Throw (e : jsexn).
Arguments Ok {A} a.
Arguments Throw {A} e.

Global Instance result_bind : MBind result := fun _ _ k r =>
  match r with
  | Ok a => k a
  | Throw e => Throw e
  end.

(** ToBoolean: the test an [if (v)] or [v || w] performs. *)
Definition truthy (v : jsval) : bool :=
  match v with
  | JUndefined | JNull => false
  | JBool b => b
  | JNum z => negb (z =? 0)
  | JStr s => negb (String.eqb s "")
  | JDate _ | JArr _ | JObj _ => true
  end.

(** ** Plain objects

    An object is the list of its own enumerable properties in the order
    [Object.keys] and [for-in] enumerate them: array-index keys first, in
    ascending numeric order, then every other key in insertion order. *)

Abbreviation obj := (list (string * jsval)).

Definition keys (o : obj) : list string := o.*1.

Fixpoint get_prop (k : string) (o : obj) : option jsval :=
  match o with
  | [] => None
  | (k', v) :: o' => if String.eqb k k' then Some v else get_prop k o'
  end.

(** [o[k]] read as an expression: a missing property is [undefined]. *)
Definition read_prop (k : string) (o : obj) : jsval :=
  default JUndefined (get_prop k o).

Definition has_prop (k : string) (o : obj) : bool :=
  bool_decide (is_Some (get_prop k o)).

(** The value of a decimal digit, and of a string of decimal digits. *)
Definition digit_of (a : ascii) : option N :=
  let n := N_of_ascii a in
  if ((48 <=? n) && (n <=? 57))%N then Some (n - 48)%N else None.

Fixpoint digits_val (s : string) (acc : N) : option N :=
  match s with
  | EmptyString => Some acc
  | String a r =>
      match digit_of a with
      | Some d => digits_val r (10 * acc + d)%N
      | None => None
      end
  end.

(** A key is an array index when it is the canonical decimal form of an
    integer below [2^32 - 1]. *)
Definition array_index (k : string) : option N :=
  match k with
  | EmptyString => None
  | String a r =>
      if Ascii.eqb a "0"%char then
        (if String.eqb r "" then Some 0%N else None)
      else
        match digits_val k 0 with
        | Some n => if (n <? 4294967295)%N then Some n else None
        | None => None
        end
  end.

(** Overwrite the value of a key that is already present, in place. *)
Fixpoint replace_prop (k : string) (v : jsval) (o : obj) : obj :=
  match o with
  | [] => []
  | (k', v') :: o' =>
      if String.eqb k k' then (k', v) :: o' else (k', v') :: replace_prop k v o'
  end.

(** Place a new array-index key after the smaller indices. *)
Fixpoint insert_index (n : N) (k : string) (v : jsval) (o : obj) : obj :=
  match o with
  | [] => [(k, v)]
  | (k', v') :: o' =>
      match array_index k' with
      | Some n' =>
          if (n' <? n)%N then (k', v') :: insert_index n k v o'
          else (k, v) :: o
      | None => (k, v) :: o
      end
  end.

(** [o[k] = v] on an object that inherits from [Object.prototype], as
    object literals and parsed objects do. A name the object already has
    as an own property gets the new value where it stands. The name
    [__proto__], when it is not an own property, reaches the setter the
    object inherits: the assignment then changes what the object
    inherits, which no function here reads, and creates no own property.
    Any other new name becomes an own property. No function here
    assigns the same name to one object twice, so the setter is there
    whenever [__proto__] is assigned. *)
Definition set_prop (k : string) (v : jsval) (o : obj) : obj :=
  if has_prop k o then replace_prop k v o
  else if String.eqb k "__proto__" then o
  else
    match array_index k with
    | Some n => insert_index n k v o
    | None => (o ++ [(k, v)])%list
    end.

(** ** [Array.prototype.sort] on property names

    The default comparator orders strings by their code units. *)

Definition str_le (s1 s2 : string) : Prop := String.leb s1 s2 = true.
Definition str_lt (s1 s2 : string) : Prop := String.ltb s1 s2 = true.

Global Instance str_le_dec : RelDecision str_le.
Proof. intros s1 s2. unfold str_le. apply _. Defined.

Global Instance str_lt_dec : RelDecision str_lt.
Proof. intros s1 s2. unfold str_lt. apply _. Defined.

Definition sort_keys (ks : list string) : list string := merge_sort str_le ks.

(** ** Collaborators

    The client configuration read through [getApiField], and the library
    functions the pipeline calls. The libraries are not part of the
    resource: every definition below takes them as a parameter. *)

Record config : Type := {
  key : string;
  secret : string;
  host : string;
  port : Z;
  protocol : string;
  timeout : Z
}.

Record Libs : Type := {
  (** [qs.stringify] *)
  qs_stringify : obj → string;
  (** [utils.stringifyRequestData] *)
  stringifyRequestData : obj → string;
  (** [crypto.createHmac("sha256", key).update(msg, 'utf8').digest("base64")] *)
  hmac_sha256_base64 : string → string → string;
  (** [crypto.createHash('md5').update(msg).digest('base64')] *)
  md5_base64 : string → string;
  (** [xml2json.toJson] *)
  xml2json_toJson : string → result string;
  (** [JSON.parse] *)
  JSON_parse : string → result jsval
}.

(** ** The store

    Objects the caller shares with the pipeline live in a heap; a
    variable holding an object holds its address. *)

Abbreviation loc := nat.

Inductive jsdata : Type :=
| DUndefined
| DNull
| DRef (l : loc).

Definition deref (h : gmap loc obj) (l : loc) : obj := h !!! l.

(** [x.k = v] for a variable [x] holding the address [l]. *)
Definition write_prop (l : loc) (k : string) (v : jsval)
    (h : gmap loc obj) : gmap loc obj :=
  <[l := set_prop k v (deref h l)]> h.

(** Assigning to a property of [null] or [undefined] throws. *)
Definition assign_prop (x : jsdata) (k : string) (v : jsval)
    (h : gmap loc obj) : result (gmap loc obj) :=
  match x with
  | DRef l => Ok (write_prop l k v h)
  | DNull => Throw (TypeError ("Cannot set property '" +:+ k +:+ "' of null"))
  | DUndefined =>
      Throw (TypeError ("Cannot set property '" +:+ k +:+ "' of undefined"))
  end.

(** [x || {}] for a variable holding an object, [null] or [undefined]. *)
Definition or_empty (x : jsdata) (h : gmap loc obj) : obj :=
  match x with
  | DRef l => deref h l
  | DNull | DUndefined => []
  end.

(** ** The resource *)

Record resource : Type := {
  (** [requestDataProcessor(method, data, headers)], [None] for [null] *)
  requestDataProcessor :
    option (string → jsdata → gmap loc obj → option obj → string);
  (** [overrideHost], [None] for [null] *)
  overrideHost : option string
}.

Record req_options : Type := {
  headers : option obj
}.

Record transport_params : Type := {
  p_host : string;
  p_port : Z;
  p_path : string;
  p_method : string;
  p_headers : obj
}.

(** What [makeRequest] hands to the transport: the connection
    parameters, the transport chosen, the timeout armed, and the payload
    that the connect listener writes before ending the request. *)
Record outbound : Type := {
  isInsecureConnection : bool;
  params : transport_params;
  armed_timeout : Z;
  written_on_connect : string
}.

Definition LF : string := String (ascii_of_nat 10) "".

(** [_.reduce(_.keys(requestData).sort(), function (m, k) {...}, {})] *)
Definition sorted (requestData : obj) : obj :=
  fold_left (fun m k => set_prop k (read_prop k requestData) m)
            (sort_keys (keys requestData)) [].

Definition stringToSign (L : Libs) (cfg : config) (path : string)
    (requestData : obj) : string :=
  String.concat LF ["GET"; host cfg; path; qs_stringify L (sorted requestData)].

(** [objectAssign(target, source)] *)
Definition objectAssign (target source : obj) : obj :=
  fold_left (fun t kv => set_prop kv.1 kv.2 t) source target.

Definition makeRequest (cfg : config) (self : resource)
    (method path requestData : string) (hdrs : obj) : outbound :=
  let timeout := timeout cfg in
  let isInsecureConnection := String.eqb (protocol cfg) "http" in
  let host :=
    match overrideHost self with
    | Some o => if String.eqb o "" then host cfg else o
    | None => host cfg
    end in
  let path' :=
    if String.eqb method "GET" then path +:+ "?" +:+ requestData else path in
  {| isInsecureConnection := isInsecureConnection;
     params := {| p_host := host; p_port := port cfg; p_path := path';
                  p_method := method; p_headers := hdrs |};
     armed_timeout := timeout;
     written_on_connect := requestData |}.

(** The GET branch of [_request]: the five fields, the sorted rebuild,
    and the signature, all written through [requestData], which holds
    the same address as [data]. The first assignment throws when there
    is no object to write to, so the rebuild always reads an object. *)
Definition sign_GET (L : Libs) (cfg : config) (now : Z) (path : string)
    (requestData : jsdata) (h : gmap loc obj) : result (gmap loc obj) :=
  h ← assign_prop requestData "AWSAccessKeyId" (JStr (key cfg)) h;
  h ← assign_prop requestData "Timestamp" (JDate now) h;
  h ← assign_prop requestData "SignatureVersion" (JStr "2") h;
  h ← assign_prop requestData "SignatureMethod" (JStr "HmacSHA256") h;
  h ← assign_prop requestData "Version" (JStr "2011-07-01") h;
  let stringToSign := stringToSign L cfg path (or_empty requestData h) in
  assign_prop requestData "Signature"
    (JStr (hmac_sha256_base64 L (secret cfg) stringToSign)) h.

(** [_request(method, path, data, auth, options, callback)] up to the
    point where the transport takes over; [now] is the clock read by
    [new Date()]. The result is the store as the call leaves it and the
    request [makeRequest] issues once the client user agent is known. *)
Definition _request (L : Libs) (cfg : config) (self : resource) (now : Z)
    (method path : string) (data : jsdata) (auth : jsval)
    (options : req_options) (h : gmap loc obj)
    : result (gmap loc obj * outbound) :=
  let requestData := data in
  h ← (if String.eqb method "GET"
       then sign_GET L cfg now path requestData h
       else Ok h);
  let requestData :=
    match requestDataProcessor self with
    | Some process => process method data h (headers options)
    | None => stringifyRequestData L (or_empty data h)
    end in
  let hdrs : obj :=
    [("Accept", JStr "text/xml");
     ("Content-Type", JStr "text/xml");
     ("Content-MD5", JStr (md5_base64 L requestData))] in
  let hdrs :=
    match headers options with
    | Some extra => objectAssign hdrs extra
    | None => hdrs
    end in
  Ok (h, makeRequest cfg self method path requestData hdrs).

(** ** The request lifecycle *)

(** Modelled from the spec: the error classes of the [Error] module,
    which is not among the sources. A connection error carries a message
    and the underlying cause; an API error carries a message, the
    response and the parse exception. The error argument of the callback
    is [null], a value of the parsed body passed through as it is, or
    one of these two. *)
Inductive cb_error : Type :=
| ENull
| EValue (v : jsval)
| AmazonMwsConnectionError (message : string) (detail : jsexn)
| AmazonMwsAPIError (message : string) (response : jsval) (exception : jsexn).

(** The result argument of the callback: [null], or the parsed body
    with the transport response attached as [lastResponse]. *)
Inductive cb_result : Type :=
| RNull
| RResponse (body : jsval) (lastResponse : nat).

(** What a handler does to the request and to the outside, in order. *)
Inductive effect : Type :=
| SetIsAborted
| Abort
| Write (payload : string)
| End
| Callback (err : cb_error) (res : cb_result).

(** The request object as the handlers see it: the [_isAborted] flag,
    the response being accumulated (its handle and the text so far), and
    the effects performed so far, oldest first. *)
Record req_state : Type := {
  _isAborted : bool;
  incoming : option (nat * string);
  trace : list effect
}.

Definition init_req : req_state :=
  {| _isAborted := false; incoming := None; trace := [] |}.

Definition perform (e : effect) (st : req_state) : req_state :=
  {| _isAborted := _isAborted st; incoming := incoming st;
     trace := (trace st ++ [e])%list |}.

Definition set_isAborted (st : req_state) : req_state :=
  perform SetIsAborted
    {| _isAborted := true; incoming := incoming st; trace := trace st |}.

Definition is_callback (e : effect) : bool :=
  match e with
  | Callback _ _ => true
  | _ => false
  end.

(** The invocations of the callback, oldest first. *)
Definition callbacks (st : req_state) : list effect :=
  filter (fun e => is_callback e = true) (trace st).

(** The caller's callback, as the handlers meet it: an invocation with
    an error and a result returns, or throws. Which of the two may
    depend on the arguments and on what has happened to the request
    before, the first argument here. *)
Abbreviation callback_fn :=
  (list effect → cb_error → cb_result → option jsexn).

(** A callback that returns from every invocation. *)
Definition returns : callback_fn := fun _ _ _ => None.

Definition never_throws (callback : callback_fn) : Prop :=
  ∀ before err res, callback before err res = None.

(** A callback that throws [e] when it is passed a value of the parsed
    body as its error, and returns otherwise. *)
Definition throws_on_value (e : jsexn) : callback_fn :=
  fun _ err _ =>
    match err with
    | EValue _ => Some e
    | _ => None
    end.

(** [callback.call(self, err, res)]: the invocation is made, and what
    it throws, if anything, is left to the statement around the call. *)
Definition call (callback : callback_fn) (err : cb_error) (res : cb_result)
    (st : req_state) : req_state * option jsexn :=
  (perform (Callback err res) st, callback (trace st) err res).

(** A call that no [try] surrounds: what it throws leaves the listener. *)
Definition unguarded (r : req_state * option jsexn) : result req_state :=
  match r with
  | (st, None) => Ok st
  | (_, Some e) => Throw e
  end.

(** The function returned by [_errorHandler(req, callback)]. *)
Definition _errorHandler (callback : callback_fn) (error : jsexn)
    (st : req_state) : result req_state :=
  if _isAborted st then Ok st
  else
    unguarded
      (call callback
         (AmazonMwsConnectionError
            "An error occurred with our connection to AmazonMws" error)
         RNull st).

(** [req.abort()]: the transport is told to abort; [emitted] is the
    error event it raises on the request while doing so, if any. *)
Definition abort (callback : callback_fn) (emitted : option jsexn)
    (st : req_state) : result req_state :=
  let st := perform Abort st in
  match emitted with
  | Some e => _errorHandler callback e st
  | None => Ok st
  end.

(** The function returned by [_timeoutHandler(timeout, req, callback)]. *)
Definition _timeoutHandler (callback : callback_fn) (timeout : Z)
    (emitted : option jsexn) (st : req_state) : result req_state :=
  let timeoutErr := PlainError "ETIMEDOUT" "ETIMEDOUT" in
  let st := set_isAborted st in
  st ← abort callback emitted st;
  unguarded
    (call callback
       (AmazonMwsConnectionError
          ("Request aborted due to timeout being reached ("
             +:+ pretty timeout +:+ "ms)")
          timeoutErr)
       RNull st).

(** [v.k] for a name no built-in prototype defines. *)
Definition get_member (v : jsval) (k : string) : result jsval :=
  match v with
  | JUndefined =>
      Throw (TypeError ("Cannot read property '" +:+ k +:+ "' of undefined"))
  | JNull => Throw (TypeError ("Cannot read property '" +:+ k +:+ "' of null"))
  | JObj o => Ok (read_prop k o)
  | JBool _ | JNum _ | JStr _ | JDate _ | JArr _ => Ok JUndefined
  end.

(** The values [Object.defineProperty] accepts as its target. *)
Definition is_object (v : jsval) : bool :=
  match v with
  | JObj _ | JArr _ | JDate _ => true
  | _ => false
  end.

(** How the [try] block of the end listener is left: by its [return],
    by falling out of it with the parsed body, or by an exception
    together with the value [response] holds at that point. The
    [return] is the call of the callback with a truthy [ErrorResponse];
    that call is inside the block, so an exception the callback throws
    there is caught like any other. *)
Inductive try_exit : Type :=
| Returned (st : req_state)
| FellThrough (response : jsval)
| Caught (response : jsval) (e : jsexn) (st : req_state).

Definition try_block (L : Libs) (callback : callback_fn) (response : string)
    (st : req_state) : try_exit :=
  match xml2json_toJson L response with
  | Throw e => Caught (JStr response) e st
  | Ok json =>
      match JSON_parse L json with
      | Throw e => Caught (JStr json) e st
      | Ok parsed =>
          match get_member parsed "ErrorResponse" with
          | Throw e => Caught parsed e st
          | Ok er =>
              if truthy er then
                match call callback (EValue er) RNull st with
                | (st, None) => Returned st
                | (st, Some e) => Caught parsed e st
                end
              else FellThrough parsed
          end
      end
  end.

(** The listener of the response's [end] event; [res] is the transport
    response and [response] the text accumulated from its chunks. The
    [catch] block calls the callback with an API error, whatever was
    thrown and whoever threw it. An exception thrown in the [catch]
    block or after the [try] statement leaves the listener. *)
Definition on_end (L : Libs) (callback : callback_fn) (res : nat)
    (response : string) (st : req_state) : result req_state :=
  match try_block L callback response st with
  | Returned st => Ok st
  | Caught response e st =>
      unguarded
        (call callback
           (AmazonMwsAPIError
              "Invalid JSON received from the AmazonMws API" response e)
           RNull st)
  | FellThrough response =>
      if is_object response
      then unguarded (call callback ENull (RResponse response res) st)
      else Throw (TypeError "Object.defineProperty called on non-object")
  end.

(** The events the transport delivers to one request: the readiness
    signal of the selected transport ([connect] or [secureConnect]), the
    timeout, an error, and the response with its chunks and its end. *)
Inductive event : Type :=
| EvConnect
| EvTimeout (emitted : option jsexn)
| EvError (error : jsexn)
| EvResponse (res : nat)
| EvData (chunk : string)
| EvEnd.

(** The function returned by [_responseHandler(req, callback)], applied
    to the transport response [res]: it starts an empty [response] text
    and registers the two listeners below on [res]. *)
Definition _responseHandler (res : nat) (st : req_state) : req_state :=
  {| _isAborted := _isAborted st; incoming := Some (res, "");
     trace := trace st |}.

(** The listener of the response's [data] event. *)
Definition on_data (chunk : string) (st : req_state) : req_state :=
  match incoming st with
  | Some (res, response) =>
      {| _isAborted := _isAborted st;
         incoming := Some (res, response +:+ chunk);
         trace := trace st |}
  | None => st
  end.

(** One event, dispatched to the listener registered for it by
    [makeRequest] or by [_responseHandler]. *)
Definition dispatch (L : Libs) (out : outbound) (callback : callback_fn)
    (ev : event) (st : req_state) : result req_state :=
  match ev with
  | EvConnect =>
      Ok (perform End (perform (Write (written_on_connect out)) st))
  | EvTimeout emitted =>
      _timeoutHandler callback (armed_timeout out) emitted st
  | EvError error => _errorHandler callback error st
  | EvResponse res => Ok (_responseHandler res st)
  | EvData chunk => Ok (on_data chunk st)
  | EvEnd =>
      match incoming st with
      | Some (res, response) => on_end L callback res response st
      | None => Ok st
      end
  end.

(** The events of one request in the order of their arrival. An
    exception that leaves a listener is not caught by anyone: the run
    stops there. *)
Fixpoint run (L : Libs) (out : outbound) (callback : callback_fn)
    (evs : list event) (st : req_state) : result req_state :=
  match evs with
  | [] => Ok st
  | ev :: evs' => st ← dispatch L out callback ev st; run L out callback evs' st
  end.

(** ** The GET branch, seen on the object it writes to *)

(** The object after the five assignments that precede the signature. *)
Definition inject (cfg : config) (now : Z) (o : obj) : obj :=
  set_prop "Version" (JStr "2011-07-01")
    (set_prop "SignatureMethod" (JStr "HmacSHA256")
       (set_prop "SignatureVersion" (JStr "2")
          (set_prop "Timestamp" (JDate now)
             (set_prop "AWSAccessKeyId" (JStr (key cfg)) o)))).

Definition signature (L : Libs) (cfg : config) (now : Z) (path : string)
    (o : obj) : string :=
  hmac_sha256_base64 L (secret cfg) (stringToSign L cfg path (inject cfg now o)).

(** The object after the assignment of the signature. *)
Definition signed (L : Libs) (cfg : config) (now : Z) (path : string)
    (o : obj) : obj :=
  set_prop "Signature" (JStr (signature L cfg now path o)) (inject cfg now o).

Definition injected_keys : list string :=
  ["AWSAccessKeyId"; "Timestamp"; "SignatureVersion"; "SignatureMethod";
   "Version"; "Signature"].

(** The payload and the headers [_request] computes from the store the
    signing step leaves. *)
Definition payload_of (L : Libs) (self : resource) (method : string)
    (data : jsdata) (options : req_options) (h : gmap loc obj) : string :=
  match requestDataProcessor self with
  | Some process => process method data h (headers options)
  | None => stringifyRequestData L (or_empty data h)
  end.

Definition headers_of (L : Libs) (options : req_options)
    (requestData : string) : obj :=
  let hdrs :=
    [("Accept", JStr "text/xml");
     ("Content-Type", JStr "text/xml");
     ("Content-MD5", JStr (md5_base64 L requestData))] in
  match headers options with
  | Some extra => objectAssign hdrs extra
  | None => hdrs
  end.

Definition issued (L : Libs) (cfg : config) (self : resource)
    (method path : string) (data : jsdata) (options : req_options)
    (h : gmap loc obj) : outbound :=
  let requestData := payload_of L self method data options h in
  makeRequest cfg self method path requestData (headers_of L options requestData).

(** The callback contract: of the two arguments of an invocation,
    exactly one is [null]. *)
Definition err_is_null (err : cb_error) : bool :=
  match err with
  | ENull | EValue JNull | EValue JUndefined => true
  | _ => false
  end.

Definition res_is_null (res : cb_result) : bool :=
  match res with
  | RNull => true
  | RResponse _ _ => false
  end.

Definition one_half (e : effect) : Prop :=
  match e with
  | Callback err res => xorb (err_is_null err) (res_is_null res) = true
  | _ => True
  end.

(** The one callback the timeout handler makes. *)
Definition timeout_callback (timeout : Z) : effect :=
  Callback
    (AmazonMwsConnectionError
       ("Request aborted due to timeout being reached ("
          +:+ pretty timeout +:+ "ms)")
       (PlainError "ETIMEDOUT" "ETIMEDOUT"))
    RNull.

(** ** The signature as the specification words it

    [stringToSign = method + LF + host + LF + path + LF + urlEncode(sortedParams)],
    where the sorted parameters are all parameters except [Signature],
    by ascending name. *)

Definition entry_le (a b : string * jsval) : Prop := str_le a.1 b.1.

Global Instance entry_le_dec : RelDecision entry_le.
Proof. intros a b. unfold entry_le. apply _. Defined.

Definition spec_sortedParams (parameters : obj) : obj :=
  merge_sort entry_le (filter (λ kv, kv.1 ≠ "Signature") parameters).

Definition spec_stringToSign (L : Libs) (method host path : string)
    (parameters : obj) : string :=
  String.concat LF
    [method; host; path; qs_stringify L (spec_sortedParams parameters)].

Definition spec_Signature (L : Libs) (secret method host path : string)
    (parameters : obj) : string :=
  hmac_sha256_base64 L secret (spec_stringToSign L method host path parameters).

(** ** The conversion of a body

    The conversion fails when [xml2json.toJson] throws on the body or
    [JSON.parse] throws on the converted text. *)
Definition conversion_fails (L : Libs) (body : string) : Prop :=
  match xml2json_toJson L body with
  | Throw _ => True
  | Ok json =>
      match JSON_parse L json with
      | Throw _ => True
      | Ok _ => False
      end
  end.

(** The text [xml2json.toJson] returns is written by [JSON.stringify],
    and [JSON.parse] reads back whatever [JSON.stringify] writes. *)
Definition converted_text_parses (L : Libs) : Prop :=
  ∀ xml json, xml2json_toJson L xml = Ok json → ∃ v, JSON_parse L json = Ok v.

(** ** Stand-ins for the libraries

    Small executable libraries, a configuration and a resource, used to
    run the pipeline on concrete requests. *)

Module Sample.

Definition render (v : jsval) : string :=
  match v with
  | JStr s => s
  | JNum z => pretty z
  | JDate ms => "date" +:+ pretty ms
  | JBool true => "true"
  | JBool false => "false"
  | _ => ""
  end.

Definition stringify (o : obj) : string :=
  String.concat "&" ((λ kv, kv.1 +:+ "=" +:+ render kv.2) <$> o).

Definition hmac (secret msg : string) : string :=
  "hmac[" +:+ secret +:+ "][" +:+ msg +:+ "]".

Definition md5 (msg : string) : string := "md5[" +:+ msg +:+ "]".

Definition toJson (xml : string) : result string :=
  if String.prefix "<" xml
  then Ok ("json " +:+ xml)
  else Throw (LibError "not well-formed").

Definition parse (json : string) : result jsval :=
  if String.eqb json "json <Orders/>" then
    Ok (JObj [("Orders", JObj [])])
  else if String.eqb json "json <ErrorResponse><Code>Denied</Code></ErrorResponse>" then
    Ok (JObj [("ErrorResponse", JObj [("Code", JStr "Denied")])])
  else if String.eqb json "json <ErrorResponse> </ErrorResponse>" then
    Ok (JObj [("ErrorResponse", JStr "")])
  else Throw (SyntaxError "Unexpected token").

Definition libs : Libs :=
  {| qs_stringify := stringify;
     stringifyRequestData := stringify;
     hmac_sha256_base64 := hmac;
     md5_base64 := md5;
     xml2json_toJson := toJson;
     JSON_parse := parse |}.

(** A converter that returns only text the parser reads back, and
    the libraries with it. *)
Definition toJson_parseable (xml : string) : result string :=
  match toJson xml with
  | Ok json =>
      match parse json with
      | Ok _ => Ok json
      | Throw _ => Throw (LibError "not well-formed")
      end
  | Throw e => Throw e
  end.

Definition libs_parseable : Libs :=
  {| qs_stringify := stringify;
     stringifyRequestData := stringify;
     hmac_sha256_base64 := hmac;
     md5_base64 := md5;
     xml2json_toJson := toJson_parseable;
     JSON_parse := parse |}.

Definition cfg : config :=
  {| key := "AKIAEXAMPLE"; secret := "s3cret";
     host := "mws.amazonservices.com"; port := 443;
     protocol := "https"; timeout := 1000 |}.

Definition self : resource :=
  {| requestDataProcessor := None; overrideHost := None |}.

Definition options : req_options := {| headers := None |}.

End Sample.

(** ** The rest of the resource *)

(** [s.replace(/\\/g, '/')]: every backslash becomes a slash. *)
Definition backslash : ascii := ascii_of_nat 92.

Fixpoint replace_backslashes (s : string) : string :=
  match s with
  | EmptyString => EmptyString
  | String a r =>
      String (if Ascii.eqb a backslash then "/"%char else a)
             (replace_backslashes r)
  end.

(** The [commandPath] argument: a function of the URL data, or a string. *)
Inductive command_path : Type :=
| CommandFunction (f : obj → string)
| CommandString (s : string).

(** [createFullPath(commandPath, urlData)]; [path_join] is [path.join],
    [basePath] and [path] are the two interpolators the constructor
    makes. *)
Definition createFullPath (path_join : list string → string)
    (basePath path : obj → string)
    (commandPath : command_path) (urlData : obj) : string :=
  replace_backslashes
    (path_join
       [basePath urlData; path urlData;
        match commandPath with
        | CommandFunction f => f urlData
        | CommandString s => s
        end]).

(** The names a [for-in] loop visits: the own names, then the
    enumerable names of the prototype chain that are not shadowed. *)
Definition for_in (o : obj) (inherited : list string) : list string :=
  (keys o ++ filter (λ k, k ∉ keys o) inherited)%list.

(** [createUrlData()]: the loop over [this._urlData], with its
    [hasOwn] test, into a new object. *)
Definition createUrlData (_urlData : obj) (inherited : list string) : obj :=
  fold_left
    (fun urlData i =>
       if has_prop i _urlData then set_prop i (read_prop i _urlData) urlData
       else urlData)
    (for_in _urlData inherited) [].

(** The same in the store: the new object gets an address of its own. *)
Definition createUrlData_in (this_urlData : loc) (inherited : list string)
    (h : gmap loc obj) : loc * gmap loc obj :=
  let urlData := fresh (dom h) in
  (urlData, <[urlData := createUrlData (deref h this_urlData) inherited]> h).

(** A promise, as the state it ends in. *)
Inductive promise : Type :=
| Pending
| Fulfilled (value : jsval)
| Rejected (reason : jsval).

(** A function handed to [setTimeout]: here always a call of the
    caller's callback with the two arguments given. *)
Inductive timer_task : Type :=
| InvokeCallback (err res : jsval).

(** [wrapTimeout(promise, callback)]: the promise it returns, and the
    timers its reactions have set once the promise has settled. The
    reactions return [undefined], which is what the promise made by
    [then] is fulfilled with. *)
Definition wrapTimeout (p : promise) (callback : bool)
    (timers : list timer_task) : promise * list timer_task :=
  if callback then
    match p with
    | Fulfilled res =>
        (Fulfilled JUndefined, (timers ++ [InvokeCallback JNull res])%list)
    | Rejected err =>
        (Fulfilled JUndefined, (timers ++ [InvokeCallback err JNull])%list)
    | Pending => (Pending, timers)
    end
  else (p, timers).

(** The socket event [makeRequest] listens to before it writes. *)
Definition ready_event (out : outbound) : string :=
  if isInsecureConnection out then "connect" else "secureConnect".

(** A socket event by name: only the one listened to has a listener. *)
Definition on_socket_event (L : Libs) (out : outbound)
    (callback : callback_fn) (name : string) (st : req_state)
    : result req_state :=
  if String.eqb name (ready_event out) then dispatch L out callback EvConnect st
  else Ok st.

(** Classes of events and effects, for counting. *)
Definition is_terminal (ev : event) : bool :=
  match ev with
  | EvTimeout _ | EvError _ | EvEnd => true
  | EvConnect | EvResponse _ | EvData _ => false
  end.

Definition is_timeout_event (ev : event) : bool :=
  match ev with
  | EvTimeout _ => true
  | _ => false
  end.

Definition is_error_event (ev : event) : bool :=
  match ev with
  | EvError _ => true
  | _ => false
  end.

Definition is_end_event (ev : event) : bool :=
  match ev with
  | EvEnd => true
  | _ => false
  end.

Definition is_connect (ev : event) : bool :=
  match ev with
  | EvConnect => true
  | _ => false
  end.

Definition is_io (e : effect) : bool :=
  match e with
  | Write _ | End => true
  | _ => false
  end.

(** The callback [_errorHandler] makes. *)
Definition is_error_callback (e : effect) : bool :=
  match e with
  | Callback (AmazonMwsConnectionError message _) _ =>
      String.eqb message "An error occurred with our connection to AmazonMws"
  | _ => false
  end.

(** The headers [_request] computes before [options.headers] is merged. *)
Definition computed_headers (L : Libs) (requestData : string) : obj :=
  [("Accept", JStr "text/xml");
   ("Content-Type", JStr "text/xml");
   ("Content-MD5", JStr (md5_base64 L requestData))].

(** A store with one data object, and the POST request issued for it
    with the stand-in libraries. *)
Module Demo.

Definition store : gmap loc obj :=
  {[0%nat := [("Action", JStr "ListOrders")]]}.

Definition post : outbound :=
  issued Sample.libs Sample.cfg Sample.self "POST" "/Orders" (DRef 0%nat)
    Sample.options store.

End Demo.

(** * Properties *)

(** A closed decidable proposition, settled by running its decision
    procedure. *)
Ltac by_computation :=
  apply (bool_decide_unpack _); vm_compute; reflexivity.

Example sort_keys_sample :
  sort_keys ["b"; "a"; "Z"; "10"; "9"] = ["10"; "9"; "Z"; "a"; "b"].
Proof. reflexivity. Qed.

Example set_prop_sample :
  keys (set_prop "9" JNull (set_prop "10" JNull (set_prop "a" JNull []))) =
  ["9"; "10"; "a"].
Proof. reflexivity. Qed.

(** ** The order on property names *)

Lemma compare_as_OT s1 s2 : String.compare s1 s2 = String_as_OT.compare s1 s2.
Proof.
  revert s2. induction s1 as [|c1 s1 IH]; intros [|c2 s2]; simpl; try done.
Qed.

Lemma str_lt_trans s1 s2 s3 : str_lt s1 s2 → str_lt s2 s3 → str_lt s1 s3.
Proof.
  unfold str_lt, String.ltb.
  rewrite (compare_as_OT s1 s2), (compare_as_OT s2 s3), (compare_as_OT s1 s3).
  destruct (String_as_OT.compare s1 s2) eqn:E1; try done.
  destruct (String_as_OT.compare s2 s3) eqn:E2; try done.
  intros _ _.
  pose proof (StrictOrder_Transitive (R := String_as_OT.lt) s1 s2 s3 E1 E2) as E3.
  unfold String_as_OT.lt in E3. by rewrite E3.
Qed.

Lemma str_le_lt_or_eq s1 s2 : str_le s1 s2 ↔ str_lt s1 s2 ∨ s1 = s2.
Proof.
  unfold str_le, str_lt, String.leb, String.ltb. split.
  - destruct (String.compare s1 s2) eqn:E; try done.
    + right. by apply String.compare_eq_iff.
    + by left.
  - intros [H| ->].
    + by destruct (String.compare s1 s2).
    + assert (String.compare s2 s2 = Eq) as ->; [|done].
      pose proof (String.compare_antisym s2 s2) as H.
      destruct (String.compare s2 s2); simpl in H; done.
Qed.

Global Instance str_le_trans : Transitive str_le.
Proof.
  intros s1 s2 s3. rewrite !str_le_lt_or_eq.
  intros [H1| ->] [H2| ->]; eauto using str_lt_trans.
Qed.

Global Instance str_le_total : Total str_le.
Proof. intros s1 s2. apply String.leb_total. Qed.

Global Instance str_le_antisym : AntiSymm (=) str_le.
Proof. intros s1 s2. apply String.leb_antisym. Qed.

Global Instance entry_le_trans : Transitive entry_le.
Proof. intros a b c. unfold entry_le. apply str_le_trans. Qed.

Global Instance entry_le_total : Total entry_le.
Proof. intros a b. unfold entry_le. apply str_le_total. Qed.

Lemma sort_keys_Sorted ks : Sorted str_le (sort_keys ks).
Proof. apply (Sorted_merge_sort str_le). Qed.

Lemma sort_keys_Permutation ks : sort_keys ks ≡ₚ ks.
Proof. apply merge_sort_Permutation. Qed.

Lemma sort_keys_perm_eq ks1 ks2 : ks1 ≡ₚ ks2 → sort_keys ks1 = sort_keys ks2.
Proof.
  intros E. apply (Sorted_unique str_le); auto using sort_keys_Sorted.
  by rewrite !sort_keys_Permutation.
Qed.

Lemma sort_keys_NoDup ks : NoDup ks → NoDup (sort_keys ks).
Proof. by rewrite sort_keys_Permutation. Qed.

(** ** Reading and writing properties *)

Lemma eqb_decide (k k' : string) : String.eqb k k' = bool_decide (k = k').
Proof.
  destruct (String.eqb_spec k k');
    [by rewrite bool_decide_eq_true_2|by rewrite bool_decide_eq_false_2].
Qed.

Lemma get_prop_Some_elem k v (o : obj) : get_prop k o = Some v → (k, v) ∈ o.
Proof.
  induction o as [|[k' v'] o IH]; simpl; [done|].
  rewrite eqb_decide. case_bool_decide; intros; simplify_eq; [left|right; auto].
Qed.

Lemma get_prop_None k (o : obj) : get_prop k o = None ↔ k ∉ keys o.
Proof.
  unfold keys. induction o as [|[k' v'] o IH]; simpl.
  - split; [intros _; apply not_elem_of_nil|done].
  - rewrite eqb_decide, not_elem_of_cons. case_bool_decide as Hk.
    + split; [done|]. by intros [? _].
    + rewrite IH. split; [done|]. by intros [_ ?].
Qed.

Lemma get_prop_is_Some k (o : obj) : is_Some (get_prop k o) ↔ k ∈ keys o.
Proof.
  rewrite <-not_eq_None_Some, get_prop_None.
  destruct (decide (k ∈ keys o)) as [Hin|Hin]; split; intros H.
  - done.
  - by intros Hn.
  - by destruct H.
  - done.
Qed.

Lemma has_prop_true k o : has_prop k o = true ↔ k ∈ keys o.
Proof. unfold has_prop. by rewrite bool_decide_eq_true, get_prop_is_Some. Qed.

Lemma has_prop_false k o : has_prop k o = false ↔ k ∉ keys o.
Proof. unfold has_prop. by rewrite bool_decide_eq_false, get_prop_is_Some. Qed.

Lemma elem_get_prop k v (o : obj) :
  NoDup (keys o) → (k, v) ∈ o → get_prop k o = Some v.
Proof.
  unfold keys. induction o as [|[k' v'] o IH]; simpl; intros Hnd Hin.
  - by apply elem_of_nil in Hin.
  - apply NoDup_cons in Hnd as [Hk' Hnd]. rewrite eqb_decide.
    apply elem_of_cons in Hin as [Heq|Hin]; simplify_eq.
    + by rewrite bool_decide_eq_true_2.
    + rewrite bool_decide_eq_false_2; [auto|].
      intros ->. apply Hk'. apply list_elem_of_fmap. by exists (k', v).
Qed.

Lemma keys_replace_prop k v o : keys (replace_prop k v o) = keys o.
Proof.
  unfold keys. induction o as [|[k' v'] o IH]; simpl; [done|].
  destruct (String.eqb k k'); csimpl; [done|by rewrite IH].
Qed.

Lemma get_replace_prop_eq k v o :
  k ∈ keys o → get_prop k (replace_prop k v o) = Some v.
Proof.
  unfold keys. induction o as [|[k' v'] o IH]; csimpl; intros Hin.
  - by apply elem_of_nil in Hin.
  - destruct (String.eqb_spec k k') as [->|Hne]; simpl.
    + by rewrite String.eqb_refl.
    + apply String.eqb_neq in Hne as Hne'. rewrite Hne'.
      apply elem_of_cons in Hin as [?|?]; [done|auto].
Qed.

Lemma get_replace_prop_ne k k' v o :
  k' ≠ k → get_prop k' (replace_prop k v o) = get_prop k' o.
Proof.
  intros Hne. induction o as [|[k0 v0] o IH]; simpl; [done|].
  destruct (String.eqb_spec k k0) as [->|Hk]; simpl.
  - apply String.eqb_neq in Hne. by rewrite Hne.
  - by rewrite IH.
Qed.

Lemma insert_index_perm n k v o : insert_index n k v o ≡ₚ (k, v) :: o.
Proof.
  induction o as [|[k' v'] o IH]; simpl; [done|].
  destruct (array_index k') as [n'|]; [|done].
  destruct (n' <? n)%N; [|done].
  rewrite IH. apply perm_swap.
Qed.

Lemma get_prop_perm k (o1 o2 : obj) :
  NoDup (keys o1) → o1 ≡ₚ o2 → get_prop k o1 = get_prop k o2.
Proof.
  intros Hnd E.
  assert (NoDup (keys o2)) as Hnd2 by (unfold keys in *; by rewrite <-E).
  destruct (get_prop k o1) as [v|] eqn:H1.
  - symmetry. apply elem_get_prop; [done|]. rewrite <-E.
    by apply get_prop_Some_elem.
  - symmetry. apply get_prop_None. apply get_prop_None in H1.
    unfold keys in *. by rewrite <-E.
Qed.

Lemma read_prop_perm k (o1 o2 : obj) :
  NoDup (keys o1) → o1 ≡ₚ o2 → read_prop k o1 = read_prop k o2.
Proof. intros. unfold read_prop. by erewrite get_prop_perm. Qed.

Lemma get_insert_index_ne n k k' v o :
  k' ≠ k → get_prop k' (insert_index n k v o) = get_prop k' o.
Proof.
  intros Hne. apply String.eqb_neq in Hne as Hne'.
  induction o as [|[k0 v0] o IH]; simpl.
  - by rewrite Hne'.
  - destruct (array_index k0) as [n0|]; simpl; [|by rewrite Hne'].
    destruct (n0 <? n)%N; simpl; [by rewrite IH|by rewrite Hne'].
Qed.

Lemma get_insert_index_eq n k v o :
  k ∉ keys o → get_prop k (insert_index n k v o) = Some v.
Proof.
  unfold keys. induction o as [|[k0 v0] o IH]; csimpl; intros Hk.
  - by rewrite String.eqb_refl.
  - apply not_elem_of_cons in Hk as [Hne Hk].
    destruct (array_index k0) as [n0|]; simpl;
      [|by rewrite String.eqb_refl].
    destruct (n0 <? n)%N; simpl; [|by rewrite String.eqb_refl].
    apply String.eqb_neq in Hne. rewrite Hne. auto.
Qed.

Lemma get_prop_app k (o1 o2 : obj) :
  get_prop k (o1 ++ o2)%list =
  match get_prop k o1 with
  | Some v => Some v
  | None => get_prop k o2
  end.
Proof.
  induction o1 as [|[k0 v0] o1 IH]; simpl; [done|].
  by destruct (String.eqb k k0).
Qed.

(** An assignment of [__proto__] to an object that has no such own
    property leaves its own properties as they are. *)
Lemma set_prop_proto v o :
  "__proto__" ∉ keys o → set_prop "__proto__" v o = o.
Proof. intros Hk. unfold set_prop. apply has_prop_false in Hk. by rewrite Hk. Qed.

Lemma set_prop_new k v o :
  k ∉ keys o → k ≠ "__proto__" →
  set_prop k v o =
  match array_index k with
  | Some n => insert_index n k v o
  | None => (o ++ [(k, v)])%list
  end.
Proof.
  intros Hk Hp. unfold set_prop. apply has_prop_false in Hk. rewrite Hk.
  apply String.eqb_neq in Hp. by rewrite Hp.
Qed.

Lemma set_prop_old k v o : k ∈ keys o → set_prop k v o = replace_prop k v o.
Proof. intros Hk. unfold set_prop. apply has_prop_true in Hk. by rewrite Hk. Qed.

Lemma get_set_prop_eq k v o :
  k ≠ "__proto__" → get_prop k (set_prop k v o) = Some v.
Proof.
  intros Hp. destruct (decide (k ∈ keys o)) as [Hk|Hk].
  - rewrite set_prop_old by done. by apply get_replace_prop_eq.
  - rewrite set_prop_new by done. destruct (array_index k) as [n|].
    + by apply get_insert_index_eq.
    + rewrite get_prop_app. apply get_prop_None in Hk. rewrite Hk. simpl.
      by rewrite String.eqb_refl.
Qed.

Lemma get_set_prop_ne k k' v o :
  k' ≠ k → get_prop k' (set_prop k v o) = get_prop k' o.
Proof.
  intros Hne. destruct (decide (k ∈ keys o)) as [Hk|Hk].
  - rewrite set_prop_old by done. by apply get_replace_prop_ne.
  - destruct (decide (k = "__proto__")) as [->|Hp];
      [by rewrite set_prop_proto|].
    rewrite set_prop_new by done. destruct (array_index k) as [n|].
    + by apply get_insert_index_ne.
    + rewrite get_prop_app. destruct (get_prop k' o); [done|]. simpl.
      apply String.eqb_neq in Hne. by rewrite Hne.
Qed.

Lemma get_set_prop k k' v o :
  k ≠ "__proto__" →
  get_prop k' (set_prop k v o) =
  if decide (k' = k) then Some v else get_prop k' o.
Proof.
  intros Hp. case_decide; subst; auto using get_set_prop_eq, get_set_prop_ne.
Qed.

(** A write to a name that is not an array index leaves the enumeration
    order alone, or appends the name when it is new. *)
Lemma keys_set_prop k v o :
  array_index k = None → k ≠ "__proto__" →
  keys (set_prop k v o) =
  if decide (k ∈ keys o) then keys o else (keys o ++ [k])%list.
Proof.
  intros Hidx Hp. case_decide as Hk.
  - rewrite set_prop_old by done. apply keys_replace_prop.
  - rewrite set_prop_new by done.
    rewrite Hidx. unfold keys. by rewrite fmap_app.
Qed.

Lemma set_prop_fresh k v (o : obj) :
  k ∉ keys o → array_index k = None → k ≠ "__proto__" →
  set_prop k v o = (o ++ [(k, v)])%list.
Proof. intros Hk Hidx Hp. rewrite set_prop_new by done. by rewrite Hidx. Qed.

Lemma not_key_filter k (o : obj) :
  k ∉ keys o → filter (λ kv, kv.1 ≠ k) o = o.
Proof.
  unfold keys. induction o as [|[k0 v0] o IH]; intros Hk; [done|].
  rewrite fmap_cons in Hk. apply not_elem_of_cons in Hk as [Hne Hk].
  rewrite filter_cons_True by (simpl in *; congruence). by rewrite IH.
Qed.

Lemma replace_prop_perm k v o :
  NoDup (keys o) → k ∈ keys o →
  replace_prop k v o ≡ₚ (k, v) :: filter (λ kv, kv.1 ≠ k) o.
Proof.
  unfold keys. induction o as [|[k0 v0] o IH]; intros Hnd Hin.
  - by apply elem_of_nil in Hin.
  - rewrite fmap_cons in Hnd, Hin. simpl.
    apply NoDup_cons in Hnd as [Hk0 Hnd].
    destruct (String.eqb_spec k k0) as [->|Hne].
    + rewrite filter_cons_False by (simpl in *; congruence).
      by rewrite not_key_filter.
    + rewrite filter_cons_True by (simpl in *; congruence).
      apply elem_of_cons in Hin as [?|Hin]; [done|].
      rewrite IH by done. apply perm_swap.
Qed.

Lemma set_prop_perm k v o :
  NoDup (keys o) → k ∈ keys o ∨ k ≠ "__proto__" →
  set_prop k v o ≡ₚ (k, v) :: filter (λ kv, kv.1 ≠ k) o.
Proof.
  intros Hnd Hp. destruct (decide (k ∈ keys o)) as [Hk|Hk].
  - rewrite set_prop_old by done. by apply replace_prop_perm.
  - destruct Hp as [?|Hp]; [done|].
    rewrite set_prop_new, not_key_filter by done.
    destruct (array_index k) as [n|].
    + apply insert_index_perm.
    + by rewrite Permutation_app_comm.
Qed.

Lemma keys_filter_ne k (o : obj) :
  keys (filter (λ kv, kv.1 ≠ k) o) = filter (λ k', k' ≠ k) (keys o).
Proof.
  unfold keys. induction o as [|[k0 v0] o IH]; [done|].
  rewrite fmap_cons. simpl fst.
  destruct (decide (k0 = k)) as [->|Hne].
  - rewrite !filter_cons_False by (simpl in *; congruence). done.
  - rewrite !filter_cons_True by (simpl in *; congruence).
    rewrite fmap_cons. by rewrite IH.
Qed.

Lemma set_prop_NoDup k v o : NoDup (keys o) → NoDup (keys (set_prop k v o)).
Proof.
  intros Hnd.
  assert (set_prop k v o = o ∨ (k ∈ keys o ∨ k ≠ "__proto__")) as [->|Hp].
  { destruct (decide (k ∈ keys o)) as [?|Hk]; [by auto|].
    destruct (decide (k = "__proto__")) as [->|?]; [|by auto].
    left. by apply set_prop_proto. }
  { done. }
  unfold keys. rewrite (set_prop_perm k v o Hnd Hp). csimpl.
  apply NoDup_cons. split.
  - fold (keys (filter (λ kv, kv.1 ≠ k) o)). rewrite keys_filter_ne.
    rewrite list_elem_of_filter. by intros [? _].
  - fold (keys (filter (λ kv, kv.1 ≠ k) o)). rewrite keys_filter_ne.
    by apply NoDup_filter.
Qed.

Lemma set_prop_perm_proper k v (o1 o2 : obj) :
  NoDup (keys o1) → o1 ≡ₚ o2 → set_prop k v o1 ≡ₚ set_prop k v o2.
Proof.
  intros Hnd E.
  assert (NoDup (keys o2)) as Hnd2 by (unfold keys in *; by rewrite <-E).
  assert (keys o1 ≡ₚ keys o2) as Ek by (unfold keys; by rewrite E).
  destruct (decide (k ∈ keys o1)) as [Hk|Hk];
    [|destruct (decide (k = "__proto__")) as [->|Hp]].
  - rewrite !set_prop_perm; [by rewrite E|done| |done|by left].
    left. by rewrite <-Ek.
  - rewrite !set_prop_proto; [done| |done]. by rewrite <-Ek.
  - rewrite !set_prop_perm; [by rewrite E|done|by right|done|by right].
Qed.

Lemma filter_not_in_snoc (ks present : list string) k :
  k ∉ ks →
  filter (λ k', k' ∉ (present ++ [k])%list) ks = filter (λ k', k' ∉ present) ks.
Proof.
  induction ks as [|k0 ks IH]; intros Hk; [done|].
  apply not_elem_of_cons in Hk as [Hne Hk].
  destruct (decide (k0 ∈ present)) as [Hin|Hin].
  - rewrite !filter_cons_False; [auto| |].
    + by intros Hn; apply Hn.
    + intros Hn; apply Hn. apply elem_of_app. by left.
  - rewrite !filter_cons_True; [by rewrite IH|done|].
    rewrite elem_of_app, list_elem_of_singleton. by intros [?|?].
Qed.

(** Assigning a list of new or existing names that are not array
    indices: the names already there keep their places, the new ones are
    appended in the order of the assignments. *)
Lemma keys_objectAssign (o source : obj) :
  NoDup (keys source) →
  Forall (λ k, array_index k = None ∧ k ≠ "__proto__") (keys source) →
  keys (objectAssign o source) =
  (keys o ++ filter (λ k, k ∉ keys o) (keys source))%list.
Proof.
  unfold objectAssign, keys. revert o.
  induction source as [|[k v] source IH]; intros o Hnd Hidx.
  - by rewrite app_nil_r.
  - rewrite fmap_cons in Hnd, Hidx. simpl fst in *.
    apply NoDup_cons in Hnd as [Hk Hnd].
    apply Forall_cons in Hidx as [[Hi Hp] Hidx].
    simpl fold_left. rewrite IH by done. rewrite fmap_cons. simpl fst.
    fold (keys (set_prop k v o)). rewrite keys_set_prop by done.
    unfold keys. case_decide as Hin.
    + by rewrite filter_cons_False by (by intros Hn; apply Hn).
    + rewrite filter_cons_True by done.
      rewrite filter_not_in_snoc by done. by rewrite <-app_assoc.
Qed.

(** ** The sorted rebuild *)

Lemma fold_left_ext_in {A B} (f g : A → B → A) (l : list B) (a : A) :
  (∀ a b, b ∈ l → f a b = g a b) → fold_left f l a = fold_left g l a.
Proof.
  revert a. induction l as [|b l IH]; intros a Hfg; [done|].
  simpl. rewrite Hfg by left. apply IH. intros a' b' Hb'. apply Hfg. by right.
Qed.

(** The rebuild depends on the object as a map only, not on the order
    in which its properties were inserted. *)
Lemma sorted_perm (rd1 rd2 : obj) :
  NoDup (keys rd1) → rd1 ≡ₚ rd2 → sorted rd1 = sorted rd2.
Proof.
  intros Hnd E. unfold sorted.
  assert (sort_keys (keys rd1) = sort_keys (keys rd2)) as <-.
  { apply sort_keys_perm_eq. unfold keys. by rewrite E. }
  apply fold_left_ext_in. intros m k _. by rewrite (read_prop_perm k rd1 rd2).
Qed.

Lemma filter_ne_id (x : string) (ks : list string) :
  x ∉ ks → filter (λ k, k ≠ x) ks = ks.
Proof.
  induction ks as [|k ks IH]; intros Hx; [done|].
  apply not_elem_of_cons in Hx as [Hne Hx].
  rewrite filter_cons_True by done. by rewrite IH.
Qed.

(** Assigning fresh names that are not array indices, one after the
    other: each becomes the last property, but for [__proto__], which
    is not stored. *)
Lemma fold_set_prop_fresh (f : string → jsval) (ks : list string) (acc : obj) :
  NoDup ks → Forall (λ k, array_index k = None) ks →
  (∀ k, k ∈ ks → k ∉ keys acc) →
  fold_left (λ m k, set_prop k (f k) m) ks acc =
  (acc ++ ((λ k, (k, f k)) <$> filter (λ k, k ≠ "__proto__") ks))%list.
Proof.
  revert acc. induction ks as [|k ks IH]; intros acc Hnd Hidx Hfresh.
  - by rewrite app_nil_r.
  - apply NoDup_cons in Hnd as [Hk Hnd].
    apply Forall_cons in Hidx as [Hi Hidx].
    simpl fold_left. destruct (decide (k = "__proto__")) as [->|Hp].
    + rewrite set_prop_proto by (apply Hfresh; left).
      rewrite filter_cons_False by (by intros Hn; apply Hn).
      apply IH; [done|done|]. intros k' Hk'. apply Hfresh. by right.
    + rewrite set_prop_fresh; [|apply Hfresh; left|done|done].
      rewrite filter_cons_True by done.
      rewrite IH; [by rewrite <-app_assoc|done|done|].
      intros k' Hk'. unfold keys. rewrite fmap_app, elem_of_app.
      intros [Hin|Hin].
      * by apply (Hfresh k'); [right|].
      * apply list_elem_of_singleton in Hin. simpl in Hin. by subst.
Qed.

(** Without array-index names, the rebuild lists the properties by
    ascending name, and has no [__proto__]. *)
Lemma sorted_entries (rd : obj) :
  NoDup (keys rd) → Forall (λ k, array_index k = None) (keys rd) →
  sorted rd =
  (λ k, (k, read_prop k rd)) <$>
    filter (λ k, k ≠ "__proto__") (sort_keys (keys rd)).
Proof.
  intros Hnd Hidx. unfold sorted. rewrite fold_set_prop_fresh.
  - done.
  - by apply sort_keys_NoDup.
  - by rewrite sort_keys_Permutation.
  - intros k _. apply not_elem_of_nil.
Qed.

Lemma entries_of_keys (rd : obj) :
  NoDup (keys rd) → (λ k, (k, read_prop k rd)) <$> keys rd = rd.
Proof.
  intros Hnd. unfold keys. rewrite <-list_fmap_compose.
  transitivity (id <$> rd); [|apply list_fmap_id]. apply list_fmap_ext.
  intros i [k v] Hi. simpl. unfold read_prop.
  rewrite (elem_get_prop k v rd Hnd); [done|].
  apply list_elem_of_lookup. eauto.
Qed.

(** With distinct names there is one way to list the properties by
    ascending name, and the rebuild finds it. *)
Lemma sorted_is_sorted_entries (rd : obj) :
  NoDup (keys rd) → Forall (λ k, array_index k = None) (keys rd) →
  "__proto__" ∉ keys rd →
  sorted rd = merge_sort entry_le rd.
Proof.
  intros Hnd Hidx Hp. rewrite sorted_entries by done.
  rewrite filter_ne_id by (by rewrite sort_keys_Permutation).
  apply (Sorted_unique_strong entry_le).
  - intros [k1 v1] [k2 v2] H1 H2 Hle1 Hle2.
    assert (k1 = k2) as -> by (by apply (anti_symm str_le)).
    assert ((k2, v1) ∈ rd) as Hin1.
    { rewrite <-(entries_of_keys rd Hnd), <-(sort_keys_Permutation (keys rd)). done. }
    assert ((k2, v2) ∈ rd) as Hin2 by (by rewrite <-(merge_sort_Permutation entry_le rd)).
    apply (elem_get_prop _ _ _ Hnd) in Hin1, Hin2. congruence.
  - apply (Sorted_fmap _ str_le); [done|apply sort_keys_Sorted].
  - apply (Sorted_merge_sort entry_le).
  - rewrite merge_sort_Permutation, sort_keys_Permutation.
    by rewrite entries_of_keys.
Qed.

(** What the rebuild holds under a name: the value the request data
    has, but for [__proto__], which it never holds. *)
Lemma keys_set_prop_incl k k' v o :
  k' ∈ keys (set_prop k v o) → k' = k ∨ k' ∈ keys o.
Proof.
  destruct (decide (k' = k)) as [->|Hne]; [by left|].
  rewrite <-!get_prop_is_Some, get_set_prop_ne by done. by right.
Qed.

Lemma get_fold_set_prop (f : string → jsval) (ks : list string) (acc : obj) k :
  "__proto__" ∉ keys acc →
  get_prop k (fold_left (λ m k', set_prop k' (f k') m) ks acc) =
  if decide (k ∈ ks ∧ k ≠ "__proto__") then Some (f k) else get_prop k acc.
Proof.
  revert acc. induction ks as [|k0 ks IH]; intros acc Hacc.
  - case_decide as Hin; [|done]. destruct Hin as [Hin _].
    by apply elem_of_nil in Hin.
  - cbn [fold_left]. rewrite IH; last first.
    { intros Hin. destruct (decide (k0 = "__proto__")) as [->|Hp0].
      - by rewrite set_prop_proto in Hin.
      - by apply keys_set_prop_incl in Hin as [?|?]. }
    destruct (decide (k ∈ ks ∧ k ≠ "__proto__")) as [[Hin Hp]|Hn].
    + rewrite decide_True; [done|]. split; [by right|done].
    + destruct (decide (k0 = "__proto__")) as [->|Hp0].
      * rewrite set_prop_proto by done. case_decide as H; [|done].
        destruct H as [[->|Hin]%elem_of_cons Hp]; [done|].
        exfalso. by apply Hn.
      * rewrite get_set_prop by done. destruct (decide (k = k0)) as [->|Hne].
        -- rewrite decide_True; [done|]. split; [by left|done].
        -- case_decide as H; [|done].
           destruct H as [[->|Hin]%elem_of_cons Hp]; [done|].
           exfalso. by apply Hn.
Qed.

Lemma fold_set_prop_NoDup (f : string → jsval) (ks : list string) (acc : obj) :
  NoDup (keys acc) →
  NoDup (keys (fold_left (λ m k', set_prop k' (f k') m) ks acc)).
Proof.
  revert acc. induction ks as [|k0 ks IH]; intros acc Hnd; [done|].
  simpl. by apply IH, set_prop_NoDup.
Qed.

Lemma get_sorted (rd : obj) k :
  get_prop k (sorted rd) =
  if decide (k = "__proto__") then None else get_prop k rd.
Proof.
  unfold sorted. rewrite get_fold_set_prop by apply not_elem_of_nil.
  destruct (decide (k = "__proto__")) as [->|Hp].
  - rewrite decide_False; [done|]. by intros [_ ?].
  - destruct (decide (k ∈ sort_keys (keys rd))) as [Hin|Hin].
    + rewrite decide_True by done. rewrite sort_keys_Permutation in Hin.
      apply get_prop_is_Some in Hin as [v Hv]. unfold read_prop. by rewrite Hv.
    + rewrite decide_False by (by intros [? _]).
      rewrite sort_keys_Permutation in Hin. simpl. symmetry.
      by apply get_prop_None.
Qed.

(** Array-index names are enumerated by value wherever they were
    inserted, so the rebuild does not list them by ascending name. *)
Example sorted_array_index_names :
  sort_keys ["9"; "10"] = ["10"; "9"] ∧
  keys (sorted [("9", JStr "a"); ("10", JStr "b")]) = ["9"; "10"].
Proof. split; reflexivity. Qed.

(** ** The GET branch

    The signing step of a request on a data object, in closed form. *)

Section Signing.
Context (L : Libs) (cfg : config) (now : Z) (path : string).

Lemma deref_insert l o (h : gmap loc obj) : deref (<[l := o]> h) l = o.
Proof. unfold deref. by rewrite lookup_total_insert_eq. Qed.

Lemma write_prop_insert l k v o h :
  write_prop l k v (<[l := o]> h) = <[l := set_prop k v o]> h.
Proof.
  unfold write_prop, deref.
  by rewrite lookup_total_insert_eq, insert_insert_eq.
Qed.

Lemma sign_GET_ref l h :
  sign_GET L cfg now path (DRef l) h =
  Ok (<[l := signed L cfg now path (deref h l)]> h).
Proof.
  unfold sign_GET. simpl. unfold mbind, result_bind. simpl.
  change (write_prop l "AWSAccessKeyId" (JStr (key cfg)) h)
    with (<[l := set_prop "AWSAccessKeyId" (JStr (key cfg)) (deref h l)]> h).
  by rewrite !write_prop_insert, deref_insert.
Qed.

Lemma _request_GET self l auth options h :
  _request L cfg self now "GET" path (DRef l) auth options h =
  let h' := <[l := signed L cfg now path (deref h l)]> h in
  Ok (h', issued L cfg self "GET" path (DRef l) options h').
Proof.
  unfold _request. simpl String.eqb. cbv iota. rewrite sign_GET_ref. done.
Qed.

Lemma _request_other self method data auth options h :
  method ≠ "GET" →
  _request L cfg self now method path data auth options h =
  Ok (h, issued L cfg self method path data options h).
Proof.
  intros Hne. apply String.eqb_neq in Hne. unfold _request. by rewrite Hne.
Qed.

Lemma inject_objectAssign o :
  inject cfg now o =
  objectAssign o
    [("AWSAccessKeyId", JStr (key cfg)); ("Timestamp", JDate now);
     ("SignatureVersion", JStr "2"); ("SignatureMethod", JStr "HmacSHA256");
     ("Version", JStr "2011-07-01")].
Proof. reflexivity. Qed.

Lemma signed_objectAssign o :
  signed L cfg now path o =
  objectAssign o
    [("AWSAccessKeyId", JStr (key cfg)); ("Timestamp", JDate now);
     ("SignatureVersion", JStr "2"); ("SignatureMethod", JStr "HmacSHA256");
     ("Version", JStr "2011-07-01");
     ("Signature", JStr (signature L cfg now path o))].
Proof. reflexivity. Qed.

Lemma keys_inject o :
  keys (inject cfg now o) =
  (keys o ++
   filter (λ k, k ∉ keys o)
     ["AWSAccessKeyId"; "Timestamp"; "SignatureVersion"; "SignatureMethod";
      "Version"])%list.
Proof.
  rewrite inject_objectAssign, keys_objectAssign; [done| |].
  - by_computation.
  - by repeat (apply Forall_cons; split; [by split|]).
Qed.

Lemma keys_signed o :
  keys (signed L cfg now path o) =
  (keys o ++ filter (λ k, k ∉ keys o) injected_keys)%list.
Proof.
  rewrite signed_objectAssign, keys_objectAssign; [done| |].
  - by_computation.
  - by repeat (apply Forall_cons; split; [by split|]).
Qed.

Lemma get_inject_other k o :
  k ∉ injected_keys → get_prop k (inject cfg now o) = get_prop k o.
Proof.
  intros Hk. unfold inject. rewrite !get_set_prop by done.
  repeat (case_decide; [subst; exfalso; apply Hk; by_computation|]). done.
Qed.

Lemma get_signed_other k o :
  k ∉ injected_keys → get_prop k (signed L cfg now path o) = get_prop k o.
Proof.
  intros Hk. unfold signed. rewrite get_set_prop_ne; [by apply get_inject_other|].
  intros ->. apply Hk. by_computation.
Qed.

Lemma inject_NoDup o : NoDup (keys o) → NoDup (keys (inject cfg now o)).
Proof. intros. unfold inject. by repeat apply set_prop_NoDup. Qed.

Lemma signed_NoDup o :
  NoDup (keys o) → NoDup (keys (signed L cfg now path o)).
Proof. intros. unfold signed. by apply set_prop_NoDup, inject_NoDup. Qed.

Lemma inject_no_Signature o :
  "Signature" ∉ keys o → "Signature" ∉ keys (inject cfg now o).
Proof.
  intros Hk. rewrite keys_inject, elem_of_app, list_elem_of_filter.
  intros [?|[_ Hin]]; [done|]. revert Hin. by_computation.
Qed.

Lemma inject_no_index o :
  Forall (λ k, array_index k = None) (keys o) →
  Forall (λ k, array_index k = None) (keys (inject cfg now o)).
Proof.
  intros Hidx. rewrite keys_inject. apply Forall_app. split; [done|].
  apply Forall_forall. intros k [_ Hin]%list_elem_of_filter. revert k Hin.
  apply Forall_forall. by repeat (apply Forall_cons; split; [reflexivity|]).
Qed.

Lemma inject_no_proto o :
  "__proto__" ∉ keys o → "__proto__" ∉ keys (inject cfg now o).
Proof.
  intros Hk. rewrite keys_inject, elem_of_app, list_elem_of_filter.
  intros [?|[_ Hin]]; [done|]. revert Hin. by_computation.
Qed.

Lemma inject_perm_proper (o1 o2 : obj) :
  NoDup (keys o1) → o1 ≡ₚ o2 → inject cfg now o1 ≡ₚ inject cfg now o2.
Proof.
  intros Hnd E. unfold inject.
  repeat (apply set_prop_perm_proper; [by repeat apply set_prop_NoDup|]).
  done.
Qed.

Lemma signature_perm (o1 o2 : obj) :
  NoDup (keys o1) → o1 ≡ₚ o2 →
  signature L cfg now path o1 = signature L cfg now path o2.
Proof.
  intros Hnd E. unfold signature, stringToSign.
  by rewrite (sorted_perm (inject cfg now o1) (inject cfg now o2))
    by auto using inject_NoDup, inject_perm_proper.
Qed.

Lemma signed_perm (o1 o2 : obj) :
  NoDup (keys o1) → o1 ≡ₚ o2 →
  signed L cfg now path o1 ≡ₚ signed L cfg now path o2.
Proof.
  intros Hnd E. unfold signed.
  rewrite (signature_perm o1 o2) by done.
  apply set_prop_perm_proper; auto using inject_NoDup, inject_perm_proper.
Qed.

(** Without a [Signature] of the caller's own, the parameters the
    specification sorts are those the code rebuilt before it assigned
    the signature. *)
Lemma spec_sortedParams_signed o :
  NoDup (keys o) → "Signature" ∉ keys o →
  Forall (λ k, array_index k = None) (keys o) →
  "__proto__" ∉ keys o →
  spec_sortedParams (signed L cfg now path o) = sorted (inject cfg now o).
Proof.
  intros Hnd Hsig Hidx Hp. unfold spec_sortedParams, signed.
  rewrite set_prop_fresh; [|by apply inject_no_Signature|done|done].
  rewrite filter_app, not_key_filter by (by apply inject_no_Signature).
  rewrite filter_cons_False by (simpl; by intros Hn; apply Hn).
  rewrite filter_nil, app_nil_r. symmetry.
  apply sorted_is_sorted_entries;
    [by apply inject_NoDup|by apply inject_no_index|by apply inject_no_proto].
Qed.

(** The signature a GET request stores is the keyed hash of the string
    built from the sorted rebuild of the data as the five assignments
    left it. *)
Lemma get_signed_Signature o :
  get_prop "Signature" (signed L cfg now path o) =
  Some (JStr (hmac_sha256_base64 L (secret cfg)
                (String.concat LF
                   ["GET"; host cfg; path;
                    qs_stringify L (sorted (inject cfg now o))]))).
Proof. unfold signed. by rewrite get_set_prop_eq. Qed.

(** The five assignments leave a [Signature] the data already has
    where it is. *)
Lemma get_inject_Signature o :
  get_prop "Signature" (inject cfg now o) = get_prop "Signature" o.
Proof. unfold inject. by rewrite !get_set_prop_ne. Qed.

End Signing.

(** ** Signing and the store *)

(** C2. Signing is applied exactly to GET requests: a GET request on a
    data object leaves [AWSAccessKeyId], [Timestamp],
    [SignatureVersion = "2"], [SignatureMethod = "HmacSHA256"], the
    fixed [Version] and a [Signature] in that object, and a request with
    any other method leaves the store, and so the data, as it was. *)
Theorem C2_signing_iff_GET L cfg self now method path auth options h :
  (∀ l, method = "GET" →
     ∃ h' out,
       _request L cfg self now method path (DRef l) auth options h = Ok (h', out) ∧
       get_prop "AWSAccessKeyId" (deref h' l) = Some (JStr (key cfg)) ∧
       get_prop "Timestamp" (deref h' l) = Some (JDate now) ∧
       get_prop "SignatureVersion" (deref h' l) = Some (JStr "2") ∧
       get_prop "SignatureMethod" (deref h' l) = Some (JStr "HmacSHA256") ∧
       get_prop "Version" (deref h' l) = Some (JStr "2011-07-01") ∧
       get_prop "Signature" (deref h' l) =
         Some (JStr (signature L cfg now path (deref h l)))) ∧
  (∀ data, method ≠ "GET" →
     ∃ out,
       _request L cfg self now method path data auth options h = Ok (h, out) ∧
       written_on_connect out = payload_of L self method data options h).
Proof.
  split.
  - intros l ->. eexists _, _. rewrite _request_GET. split; [done|].
    rewrite deref_insert. unfold signed, inject.
    repeat split; rewrite !get_set_prop by done; by repeat case_decide.
  - intros data Hne. eexists. by rewrite _request_other.
Qed.

Lemma C2_witness :
  (∃ h' out,
     _request Sample.libs Sample.cfg Sample.self 1500000000000 "GET" "/Orders"
       (DRef 0%nat) JNull Sample.options {[0%nat := [("Action", JStr "ListOrders")]]}
       = Ok (h', out) ∧
     get_prop "SignatureVersion" (deref h' 0%nat) = Some (JStr "2") ∧
     get_prop "Action" (deref h' 0%nat) = Some (JStr "ListOrders")) ∧
  (∃ out,
     _request Sample.libs Sample.cfg Sample.self 1500000000000 "POST" "/Orders"
       (DRef 0%nat) JNull Sample.options {[0%nat := [("Action", JStr "ListOrders")]]}
       = Ok ({[0%nat := [("Action", JStr "ListOrders")]]}, out) ∧
     written_on_connect out = "Action=ListOrders").
Proof.
  split.
  - destruct (C2_signing_iff_GET Sample.libs Sample.cfg Sample.self
                1500000000000 "GET" "/Orders" JNull Sample.options
                {[0%nat := [("Action", JStr "ListOrders")]]}) as [HG _].
    destruct (HG 0%nat eq_refl) as (h' & out & Hr & _ & _ & Hv & _).
    exists h', out. split; [exact Hr|]. split; [exact Hv|].
    rewrite _request_GET in Hr. injection Hr as <- _.
    reflexivity.
  - destruct (C2_signing_iff_GET Sample.libs Sample.cfg Sample.self
                1500000000000 "POST" "/Orders" JNull Sample.options
                {[0%nat := [("Action", JStr "ListOrders")]]}) as [_ HP].
    destruct (HP (DRef 0%nat)) as (out & Hr & Hw); [discriminate|].
    exists out. split; [exact Hr|]. rewrite Hw. reflexivity.
Defined.

(** C10, as the code has it. A request with a method other than GET
    leaves the store untouched. A GET request writes into the caller's
    data object itself: the six signing fields are assigned there, every
    other property of that object keeps its value, and every other
    object of the store is unchanged. *)
Theorem C10_data_written_in_place L cfg self now method path auth options h :
  (∀ data, method ≠ "GET" →
     ∃ out, _request L cfg self now method path data auth options h = Ok (h, out)) ∧
  (∀ l, method = "GET" →
     ∃ h' out,
       _request L cfg self now method path (DRef l) auth options h = Ok (h', out) ∧
       h' = <[l := signed L cfg now path (deref h l)]> h ∧
       (∀ l', l' ≠ l → h' !! l' = h !! l') ∧
       (∀ k, k ∈ injected_keys → is_Some (get_prop k (deref h' l))) ∧
       (∀ k, k ∉ injected_keys →
          get_prop k (deref h' l) = get_prop k (deref h l))).
Proof.
  split.
  - intros data Hne. eexists. by apply _request_other.
  - intros l ->. eexists _, _. rewrite _request_GET. split; [done|].
    split; [done|]. rewrite deref_insert. split; [|split].
    + intros l' Hne. by apply lookup_insert_ne.
    + intros k Hk. rewrite get_prop_is_Some, keys_signed.
      destruct (decide (k ∈ keys (deref h l))) as [Hin|Hin].
      * apply elem_of_app; by left.
      * apply elem_of_app; right. by apply list_elem_of_filter.
    + intros k Hk. by apply get_signed_other.
Qed.

Lemma C10_witness :
  (∃ out,
     _request Sample.libs Sample.cfg Sample.self 1500000000000 "POST" "/Orders"
       (DRef 0%nat) JNull Sample.options
       {[0%nat := [("Action", JStr "ListOrders")]]}
     = Ok ({[0%nat := [("Action", JStr "ListOrders")]]}, out)) ∧
  (∃ h' out,
     _request Sample.libs Sample.cfg Sample.self 1500000000000 "GET" "/Orders"
       (DRef 0%nat) JNull Sample.options
       {[0%nat := [("Action", JStr "ListOrders")]]}
     = Ok (h', out) ∧
     get_prop "Action" (deref h' 0%nat) = Some (JStr "ListOrders")).
Proof.
  split.
  - destruct (C10_data_written_in_place Sample.libs Sample.cfg Sample.self
                1500000000000 "POST" "/Orders" JNull Sample.options
                {[0%nat := [("Action", JStr "ListOrders")]]}) as [HP _].
    apply (HP (DRef 0%nat)). discriminate.
  - destruct (C10_data_written_in_place Sample.libs Sample.cfg Sample.self
                1500000000000 "GET" "/Orders" JNull Sample.options
                {[0%nat := [("Action", JStr "ListOrders")]]}) as [_ HG].
    destruct (HG 0%nat eq_refl) as (h' & out & Hr & _ & _ & _ & Hframe).
    exists h', out. split; [exact Hr|].
    rewrite (Hframe "Action").
    + reflexivity.
    + by_computation.
Defined.

(** C10, as stated, fails: after a GET request the caller's own data
    object holds the six signing fields next to the one it was given. *)
Lemma C10_counterexample :
  ∃ h' out,
    _request Sample.libs Sample.cfg Sample.self 1500000000000 "GET" "/Orders"
      (DRef 0%nat) JNull Sample.options
      {[0%nat := [("Action", JStr "ListOrders")]]}
    = Ok (h', out) ∧
    keys (deref ({[0%nat := [("Action", JStr "ListOrders")]]}) 0%nat) = ["Action"] ∧
    keys (deref h' 0%nat) =
      ["Action"; "AWSAccessKeyId"; "Timestamp"; "SignatureVersion";
       "SignatureMethod"; "Version"; "Signature"] ∧
    deref h' 0%nat ≠ deref ({[0%nat := [("Action", JStr "ListOrders")]]}) 0%nat.
Proof.
  eexists _, _. split; [reflexivity|]. split; [reflexivity|].
  split; [reflexivity|]. vm_compute. discriminate.
Qed.

(** ** The string that is signed *)

(** For a GET request on data with distinct names, none of them
    [Signature], [__proto__] or an array index, the signature stored is
    the one the specification describes: the keyed hash of method, host,
    path and the serialization of all parameters but [Signature], by
    ascending name, joined by line feeds. *)
Lemma signature_over_sorted_parameters
    L cfg self now path l auth options h :
  NoDup (keys (deref h l)) →
  "Signature" ∉ keys (deref h l) →
  Forall (λ k, array_index k = None) (keys (deref h l)) →
  "__proto__" ∉ keys (deref h l) →
  ∃ h' out,
    _request L cfg self now "GET" path (DRef l) auth options h = Ok (h', out) ∧
    get_prop "Signature" (deref h' l) =
      Some (JStr (spec_Signature L (secret cfg) "GET" (host cfg) path
                    (deref h' l))).
Proof.
  intros Hnd Hsig Hidx Hp. eexists _, _. rewrite _request_GET. split; [done|].
  simpl. rewrite deref_insert, get_signed_Signature.
  unfold spec_Signature, spec_stringToSign.
  by rewrite spec_sortedParams_signed.
Qed.

(** Two GET requests on the same data object, whatever the libraries:
    the sorted rebuild of the second holds the [Signature] the first
    stored, and the second signature is computed over it. *)
Lemma second_request_signs_the_first_Signature
    L cfg self now1 now2 path1 path2 l auth options h :
  ∃ h1 out1 h2 out2 first,
    _request L cfg self now1 "GET" path1 (DRef l) auth options h = Ok (h1, out1) ∧
    get_prop "Signature" (deref h1 l) = Some (JStr first) ∧
    _request L cfg self now2 "GET" path2 (DRef l) auth options h1 = Ok (h2, out2) ∧
    get_prop "Signature" (sorted (inject cfg now2 (deref h1 l))) =
      Some (JStr first) ∧
    get_prop "Signature" (deref h2 l) =
      Some (JStr (hmac_sha256_base64 L (secret cfg)
                    (String.concat LF
                       ["GET"; host cfg; path2;
                        qs_stringify L (sorted (inject cfg now2 (deref h1 l)))]))).
Proof.
  eexists _, _, _, _, _. rewrite !_request_GET. simpl.
  split; [done|]. rewrite !deref_insert.
  split; [apply get_signed_Signature|]. split; [done|]. split.
  - rewrite get_sorted, decide_False by done.
    rewrite get_inject_Signature. apply get_signed_Signature.
  - apply get_signed_Signature.
Qed.

(** C3. The signature is meant to cover every parameter but
    [Signature], and the first request on a data object computes it so.
    But the signature is then stored in the caller's own object, and the
    string to sign is built from every name found there: a second GET
    request on the same object signs the [Signature] the first one
    left, and what it stores is not the signature of its parameters
    without [Signature]. *)
Theorem C3_second_request_signs_stale_Signature :
  ∃ h1 out1 h2 out2 first second,
    _request Sample.libs Sample.cfg Sample.self 1500000000000 "GET" "/Orders"
      (DRef 0%nat) JNull Sample.options
      {[0%nat := [("Action", JStr "ListOrders")]]}
    = Ok (h1, out1) ∧
    get_prop "Signature" (deref h1 0%nat) = Some (JStr first) ∧
    first =
      spec_Signature Sample.libs "s3cret" "GET" "mws.amazonservices.com"
        "/Orders" (deref h1 0%nat) ∧
    _request Sample.libs Sample.cfg Sample.self 1500000060000 "GET" "/Orders"
      (DRef 0%nat) JNull Sample.options h1
    = Ok (h2, out2) ∧
    get_prop "Signature" (deref h2 0%nat) = Some (JStr second) ∧
    second =
      hmac_sha256_base64 Sample.libs "s3cret"
        (String.concat LF
           ["GET"; "mws.amazonservices.com"; "/Orders";
            "AWSAccessKeyId=AKIAEXAMPLE&Action=ListOrders&Signature=" +:+ first
            +:+ "&SignatureMethod=HmacSHA256&SignatureVersion=2"
            +:+ "&Timestamp=date1500000060000&Version=2011-07-01"]) ∧
    second ≠
      spec_Signature Sample.libs "s3cret" "GET" "mws.amazonservices.com"
        "/Orders" (deref h2 0%nat).
Proof.
  eexists _, _, _, _, _, _. split; [reflexivity|]. split; [reflexivity|].
  split; [vm_compute; reflexivity|]. split; [reflexivity|].
  split; [reflexivity|]. split; [vm_compute; reflexivity|].
  vm_compute. discriminate.
Qed.

(** The same happens when the caller's data comes with a [Signature]
    of its own. *)
Example own_Signature_is_signed :
  ∃ h' out signature,
    _request Sample.libs Sample.cfg Sample.self 1500000000000 "GET" "/Orders"
      (DRef 0%nat) JNull Sample.options
      {[0%nat := [("Action", JStr "ListOrders"); ("Signature", JStr "stale")]]}
    = Ok (h', out) ∧
    keys (sorted (inject Sample.cfg 1500000000000
                    [("Action", JStr "ListOrders"); ("Signature", JStr "stale")]))
      = ["AWSAccessKeyId"; "Action"; "Signature"; "SignatureMethod";
         "SignatureVersion"; "Timestamp"; "Version"] ∧
    get_prop "Signature" (deref h' 0%nat) = Some (JStr signature) ∧
    signature =
      hmac_sha256_base64 Sample.libs "s3cret"
        (String.concat LF
           ["GET"; "mws.amazonservices.com"; "/Orders";
            "AWSAccessKeyId=AKIAEXAMPLE&Action=ListOrders&Signature=stale"
            +:+ "&SignatureMethod=HmacSHA256&SignatureVersion=2"
            +:+ "&Timestamp=date1500000000000&Version=2011-07-01"]) ∧
    signature ≠
      spec_Signature Sample.libs "s3cret" "GET" "mws.amazonservices.com"
        "/Orders" (deref h' 0%nat).
Proof.
  eexists _, _, _; (split; [reflexivity|]); (split; [reflexivity|]);
    (split; [reflexivity|]); (split; [vm_compute; reflexivity|]);
    vm_compute; discriminate.
Qed.

(** When the data has array-index names, here [9] and [10], the rebuilt
    object enumerates them by value, so they are serialized as [9],
    [10] and not in the order of the names. *)
Example array_index_names_are_signed_by_value :
  ∃ h' out signature,
    _request Sample.libs Sample.cfg Sample.self 1500000000000 "GET" "/Orders"
      (DRef 0%nat) JNull Sample.options
      {[0%nat := [("9", JStr "a"); ("10", JStr "b")]]}
    = Ok (h', out) ∧
    keys (sorted (inject Sample.cfg 1500000000000
                    [("9", JStr "a"); ("10", JStr "b")]))
      = ["9"; "10"; "AWSAccessKeyId"; "SignatureMethod"; "SignatureVersion";
         "Timestamp"; "Version"] ∧
    get_prop "Signature" (deref h' 0%nat) = Some (JStr signature) ∧
    signature =
      hmac_sha256_base64 Sample.libs "s3cret"
        (String.concat LF
           ["GET"; "mws.amazonservices.com"; "/Orders";
            "9=a&10=b&AWSAccessKeyId=AKIAEXAMPLE"
            +:+ "&SignatureMethod=HmacSHA256&SignatureVersion=2"
            +:+ "&Timestamp=date1500000000000&Version=2011-07-01"]) ∧
    signature ≠
      spec_Signature Sample.libs "s3cret" "GET" "mws.amazonservices.com"
        "/Orders" (deref h' 0%nat).
Proof.
  eexists _, _, _; (split; [reflexivity|]); (split; [reflexivity|]);
    (split; [reflexivity|]); (split; [vm_compute; reflexivity|]);
    vm_compute; discriminate.
Qed.

(** When the data has a property named [__proto__] of its own, as a
    parsed object can, the rebuilt object does not get it, and it is
    signed over no more, while the caller's object still has it. *)
Example own_proto_name_is_not_signed :
  ∃ h' out,
    _request Sample.libs Sample.cfg Sample.self 1500000000000 "GET" "/Orders"
      (DRef 0%nat) JNull Sample.options
      {[0%nat := [("__proto__", JStr "x"); ("Action", JStr "ListOrders")]]}
    = Ok (h', out) ∧
    keys (sorted (inject Sample.cfg 1500000000000
                    [("__proto__", JStr "x"); ("Action", JStr "ListOrders")]))
      = ["AWSAccessKeyId"; "Action"; "SignatureMethod"; "SignatureVersion";
         "Timestamp"; "Version"] ∧
    keys (deref h' 0%nat) =
      ["__proto__"; "Action"; "AWSAccessKeyId"; "Timestamp"; "SignatureVersion";
       "SignatureMethod"; "Version"; "Signature"].
Proof. eexists _, _. repeat split; reflexivity. Qed.

(** ** Key order invariance *)

(** C6, as the code has it. Two data maps with the same properties in
    different insertion orders, signed with the same method,
    credentials, host, path and timestamp, give signed parameters that
    agree as maps: the same [Signature], the same value under every
    name, and the same list of properties once put in sorted order.
    They are not the same objects: each is the caller's object, with
    its names in the order they had, followed by the signing fields
    that were new. *)
Theorem C6_key_order_invariance
    L cfg self now path l1 l2 auth options (h1 h2 : gmap loc obj) :
  NoDup (keys (deref h1 l1)) →
  deref h1 l1 ≡ₚ deref h2 l2 →
  ∃ h1' out1 h2' out2 signature,
    _request L cfg self now "GET" path (DRef l1) auth options h1 = Ok (h1', out1) ∧
    _request L cfg self now "GET" path (DRef l2) auth options h2 = Ok (h2', out2) ∧
    get_prop "Signature" (deref h1' l1) = Some (JStr signature) ∧
    get_prop "Signature" (deref h2' l2) = Some (JStr signature) ∧
    deref h1' l1 ≡ₚ deref h2' l2 ∧
    sorted (deref h1' l1) = sorted (deref h2' l2) ∧
    (∀ k, get_prop k (deref h1' l1) = get_prop k (deref h2' l2)) ∧
    keys (deref h1' l1) =
      (keys (deref h1 l1) ++
       filter (λ k, k ∉ keys (deref h1 l1)) injected_keys)%list ∧
    keys (deref h2' l2) =
      (keys (deref h2 l2) ++
       filter (λ k, k ∉ keys (deref h2 l2)) injected_keys)%list.
Proof.
  intros Hnd E. eexists _, _, _, _, _. rewrite !_request_GET. simpl.
  split; [done|]. split; [done|]. rewrite !deref_insert.
  split; [apply get_signed_Signature|].
  split; [|split; [|split; [|split; [|split]]]].
  - rewrite get_signed_Signature.
    by rewrite (sorted_perm (inject cfg now (deref h1 l1))
                  (inject cfg now (deref h2 l2)))
      by auto using inject_NoDup, inject_perm_proper.
  - by apply signed_perm.
  - apply sorted_perm; [by apply signed_NoDup|by apply signed_perm].
  - intros k. apply get_prop_perm; [by apply signed_NoDup|by apply signed_perm].
  - apply keys_signed.
  - apply keys_signed.
Qed.

Lemma C6_witness :
  ∃ h1' out1 h2' out2 signature,
    _request Sample.libs Sample.cfg Sample.self 1500000000000 "GET" "/Orders"
      (DRef 0%nat) JNull Sample.options
      {[0%nat := [("Zeta", JStr "1"); ("Action", JStr "ListOrders")]]}
    = Ok (h1', out1) ∧
    _request Sample.libs Sample.cfg Sample.self 1500000000000 "GET" "/Orders"
      (DRef 0%nat) JNull Sample.options
      {[0%nat := [("Action", JStr "ListOrders"); ("Zeta", JStr "1")]]}
    = Ok (h2', out2) ∧
    get_prop "Signature" (deref h1' 0%nat) = Some (JStr signature) ∧
    get_prop "Signature" (deref h2' 0%nat) = Some (JStr signature) ∧
    deref h1' 0%nat ≡ₚ deref h2' 0%nat ∧
    sorted (deref h1' 0%nat) = sorted (deref h2' 0%nat) ∧
    ∀ k, get_prop k (deref h1' 0%nat) = get_prop k (deref h2' 0%nat).
Proof.
  destruct (C6_key_order_invariance Sample.libs Sample.cfg Sample.self
              1500000000000 "/Orders" 0%nat 0%nat JNull Sample.options
              {[0%nat := [("Zeta", JStr "1"); ("Action", JStr "ListOrders")]]}
              {[0%nat := [("Action", JStr "ListOrders"); ("Zeta", JStr "1")]]})
    as (h1' & out1 & h2' & out2 & signature & H1 & H2 & H3 & H4 & H5 & H6 & H7 & _).
  - by_computation.
  - vm_compute. apply perm_swap.
  - by exists h1', out1, h2', out2, signature.
Defined.

(** C6, as stated, fails: the signed parameters of the two permuted
    inputs carry the same [Signature] but are not identical. Each lists
    its names in the order of its input, and the query string and the
    payload serialized from each follow that order. *)
Lemma C6_counterexample :
  ∃ h1' out1 h2' out2,
    [("Zeta", JStr "1"); ("Action", JStr "ListOrders")] ≡ₚ
      [("Action", JStr "ListOrders"); ("Zeta", JStr "1")] ∧
    _request Sample.libs Sample.cfg Sample.self 1500000000000 "GET" "/Orders"
      (DRef 0%nat) JNull Sample.options
      {[0%nat := [("Zeta", JStr "1"); ("Action", JStr "ListOrders")]]}
    = Ok (h1', out1) ∧
    _request Sample.libs Sample.cfg Sample.self 1500000000000 "GET" "/Orders"
      (DRef 0%nat) JNull Sample.options
      {[0%nat := [("Action", JStr "ListOrders"); ("Zeta", JStr "1")]]}
    = Ok (h2', out2) ∧
    get_prop "Signature" (deref h1' 0%nat) =
      get_prop "Signature" (deref h2' 0%nat) ∧
    keys (deref h1' 0%nat) =
      ["Zeta"; "Action"; "AWSAccessKeyId"; "Timestamp"; "SignatureVersion";
       "SignatureMethod"; "Version"; "Signature"] ∧
    keys (deref h2' 0%nat) =
      ["Action"; "Zeta"; "AWSAccessKeyId"; "Timestamp"; "SignatureVersion";
       "SignatureMethod"; "Version"; "Signature"] ∧
    deref h1' 0%nat ≠ deref h2' 0%nat ∧
    p_path (params out1) ≠ p_path (params out2) ∧
    written_on_connect out1 ≠ written_on_connect out2.
Proof.
  eexists _, _, _, _. split; [apply perm_swap|]. split; [reflexivity|].
  split; [reflexivity|]. split; [vm_compute; reflexivity|].
  split; [reflexivity|]. split; [reflexivity|].
  repeat split; vm_compute; discriminate.
Qed.

(** The two signed objects differ in the order of their names. *)
Example permuted_data_serialized_differently :
  keys (signed Sample.libs Sample.cfg 1500000000000 "/Orders"
          [("Zeta", JStr "1"); ("Action", JStr "ListOrders")]) ≠
  keys (signed Sample.libs Sample.cfg 1500000000000 "/Orders"
          [("Action", JStr "ListOrders"); ("Zeta", JStr "1")]).
Proof. vm_compute. discriminate. Qed.

(** ** What downstream serialization is given *)

(** C4, as the code has it. The sorted rebuild serves the string to sign
    only. What is serialized for the query string and the payload of a
    GET request is the caller's data object as the signing step left it:
    the names it already had in their places, followed by those of the
    six signing fields that were new, in the order of their assignment. *)
Theorem C4_downstream_keeps_insertion_order L cfg self now path l auth options h :
  ∃ h' out,
    _request L cfg self now "GET" path (DRef l) auth options h = Ok (h', out) ∧
    written_on_connect out =
      match requestDataProcessor self with
      | Some process => process "GET" (DRef l) h' (headers options)
      | None => stringifyRequestData L (deref h' l)
      end ∧
    keys (deref h' l) =
      (keys (deref h l) ++
       filter (λ k, k ∉ keys (deref h l))
         ["AWSAccessKeyId"; "Timestamp"; "SignatureVersion";
          "SignatureMethod"; "Version"; "Signature"])%list.
Proof.
  eexists _, _. rewrite _request_GET. split; [done|]. split; [done|].
  rewrite deref_insert. apply keys_signed.
Qed.

(** C4, as stated, fails: for a GET request with the data
    [{Zeta: "1", Action: "ListOrders"}] the object that is serialized
    has [Zeta] before [Action] and [Timestamp] before
    [SignatureVersion], and the query string shows them in that order. *)
Lemma C4_counterexample :
  ∃ h' out signature,
    _request Sample.libs Sample.cfg Sample.self 1500000000000 "GET" "/Orders"
      (DRef 0%nat) JNull Sample.options
      {[0%nat := [("Zeta", JStr "1"); ("Action", JStr "ListOrders")]]}
    = Ok (h', out) ∧
    written_on_connect out = stringifyRequestData Sample.libs (deref h' 0%nat) ∧
    ¬ Sorted str_le (keys (deref h' 0%nat)) ∧
    p_path (params out) =
      "/Orders?Zeta=1&Action=ListOrders&AWSAccessKeyId=AKIAEXAMPLE"
      +:+ "&Timestamp=date1500000000000&SignatureVersion=2"
      +:+ "&SignatureMethod=HmacSHA256&Version=2011-07-01&Signature="
      +:+ signature.
Proof.
  eexists _, _, _. split; [reflexivity|]. split; [reflexivity|]. split.
  - by_computation.
  - vm_compute. reflexivity.
Qed.

(** ** Query string and payload *)

Lemma connect_writes_payload L out callback :
  run L out callback [EvConnect] init_req =
  Ok {| _isAborted := false; incoming := None;
        trace := [Write (written_on_connect out); End] |}.
Proof. reflexivity. Qed.

(** C5, as the code has it. The serialized parameter string of a GET
    request is appended to the path after a question mark, and for any
    other method the path is left as it is; for every method, GET
    included, the connect listener writes that same string as the
    payload and ends the request. *)
Theorem C5_query_string_and_payload L cfg self now path auth options h callback :
  (∀ l,
     ∃ h' out st,
       _request L cfg self now "GET" path (DRef l) auth options h = Ok (h', out) ∧
       written_on_connect out = payload_of L self "GET" (DRef l) options h' ∧
       p_path (params out) = path +:+ "?" +:+ written_on_connect out ∧
       run L out callback [EvConnect] init_req = Ok st ∧
       trace st = [Write (written_on_connect out); End]) ∧
  (∀ method data, method ≠ "GET" →
     ∃ out st,
       _request L cfg self now method path data auth options h = Ok (h, out) ∧
       written_on_connect out = payload_of L self method data options h ∧
       p_path (params out) = path ∧
       run L out callback [EvConnect] init_req = Ok st ∧
       trace st = [Write (written_on_connect out); End]).
Proof.
  split.
  - intros l. eexists _, _, _. rewrite _request_GET.
    repeat split; reflexivity.
  - intros method data Hne. eexists _, _. rewrite _request_other by done.
    split; [done|]. split; [done|]. split; [|split; reflexivity].
    simpl. apply String.eqb_neq in Hne. by rewrite Hne.
Qed.

Lemma C5_witness :
  ∃ out st,
    _request Sample.libs Sample.cfg Sample.self 1500000000000 "POST" "/Orders"
      (DRef 0%nat) JNull Sample.options
      {[0%nat := [("Action", JStr "ListOrders")]]}
    = Ok ({[0%nat := [("Action", JStr "ListOrders")]]}, out) ∧
    p_path (params out) = "/Orders" ∧
    trace st = [Write "Action=ListOrders"; End].
Proof.
  destruct (C5_query_string_and_payload Sample.libs Sample.cfg Sample.self
              1500000000000 "/Orders" JNull Sample.options
              {[0%nat := [("Action", JStr "ListOrders")]]} returns) as [_ HP].
  destruct (HP "POST" (DRef 0%nat)) as (out & st & Hr & Hw & Hp & _ & Ht);
    [discriminate|].
  exists out, st. split; [exact Hr|]. split; [exact Hp|].
  rewrite Ht, Hw. reflexivity.
Defined.

(** C5, as stated, fails: the payload written for a GET request is the
    parameter string that was also appended to its path. *)
Lemma C5_counterexample :
  ∃ h' out st q,
    _request Sample.libs Sample.cfg Sample.self 1500000000000 "GET" "/Orders"
      (DRef 0%nat) JNull Sample.options
      {[0%nat := [("Action", JStr "ListOrders")]]}
    = Ok (h', out) ∧
    q = stringifyRequestData Sample.libs (deref h' 0%nat) ∧
    String.prefix "Action=ListOrders&AWSAccessKeyId=AKIAEXAMPLE" q = true ∧
    p_method (params out) = "GET" ∧
    p_path (params out) = "/Orders?" +:+ q ∧
    run Sample.libs out returns [EvConnect] init_req = Ok st ∧
    trace st = [Write q; End].
Proof.
  eexists _, _, _, _. split; [reflexivity|]. split; [reflexivity|].
  repeat split; vm_compute; reflexivity.
Qed.

(** ** Decoding the response *)

(** C7, as the code has it. When the body decodes to an object whose
    [ErrorResponse] property is truthy, the callback receives that value
    itself as its error and [null] as its result; nothing is thrown and
    nothing is wrapped. Should the callback throw on it, the [catch]
    block calls it once more, with an API error. When the property is
    there but falsy, the body is delivered as a result. *)
Theorem C7_truthy_ErrorResponse_is_the_error L callback res body json o er st :
  xml2json_toJson L body = Ok json →
  JSON_parse L json = Ok (JObj o) →
  get_prop "ErrorResponse" o = Some er →
  on_end L callback res body st =
    if truthy er
    then
      match callback (trace st) (EValue er) RNull with
      | None => Ok (perform (Callback (EValue er) RNull) st)
      | Some e =>
          unguarded
            (call callback
               (AmazonMwsAPIError "Invalid JSON received from the AmazonMws API"
                  (JObj o) e)
               RNull (perform (Callback (EValue er) RNull) st))
      end
    else unguarded (call callback ENull (RResponse (JObj o) res) st).
Proof.
  intros Hj Hp Her. unfold on_end, try_block, call. rewrite Hj, Hp. simpl.
  unfold read_prop. rewrite Her. simpl.
  destruct (truthy er); [|done].
  by destruct (callback (trace st) (EValue er) RNull).
Qed.

Lemma C7_witness :
  on_end Sample.libs returns 7
    "<ErrorResponse><Code>Denied</Code></ErrorResponse>" init_req =
  Ok (perform (Callback (EValue (JObj [("Code", JStr "Denied")])) RNull)
        init_req).
Proof.
  apply (C7_truthy_ErrorResponse_is_the_error Sample.libs returns 7
           "<ErrorResponse><Code>Denied</Code></ErrorResponse>"
           "json <ErrorResponse><Code>Denied</Code></ErrorResponse>"
           [("ErrorResponse", JObj [("Code", JStr "Denied")])]
           (JObj [("Code", JStr "Denied")]) init_req);
    reflexivity.
Defined.

(** C7, as stated, fails: a body that decodes to an object with an empty
    [ErrorResponse] is delivered as a result, with a [null] error. *)
Lemma C7_counterexample :
  xml2json_toJson Sample.libs "<ErrorResponse> </ErrorResponse>" =
    Ok "json <ErrorResponse> </ErrorResponse>" ∧
  JSON_parse Sample.libs "json <ErrorResponse> </ErrorResponse>" =
    Ok (JObj [("ErrorResponse", JStr "")]) ∧
  on_end Sample.libs returns 7 "<ErrorResponse> </ErrorResponse>" init_req =
    Ok (perform
          (Callback ENull (RResponse (JObj [("ErrorResponse", JStr "")]) 7))
          init_req).
Proof. repeat split; reflexivity. Qed.

(** When the converter and the parser are the two halves of one
    notation, a conversion fails only where the converter throws. *)
Lemma conversion_fails_in_toJson L body :
  converted_text_parses L → conversion_fails L body →
  ∃ e, xml2json_toJson L body = Throw e.
Proof.
  intros Hparses. unfold conversion_fails.
  destruct (xml2json_toJson L body) as [json|e] eqn:Hj; [|by eauto].
  destruct (Hparses body json Hj) as [v ->]. done.
Qed.

Lemma libs_parseable_parses : converted_text_parses Sample.libs_parseable.
Proof.
  intros xml json. simpl. unfold Sample.toJson_parseable.
  destruct (Sample.toJson xml) as [json'|]; [|done].
  destruct (Sample.parse json') as [v|] eqn:Hp; [|done].
  intros [= <-]. eauto.
Qed.

(** C8. A body whose conversion fails is never thrown on: the callback
    is invoked with an API error that carries the raw body and the
    exception of the conversion, and with [null] as the result. The
    call stands in the [catch] block, so nothing leaves the listener but
    what the callback itself throws. *)
Theorem C8_conversion_failure_is_an_API_error L callback res body st :
  converted_text_parses L →
  conversion_fails L body →
  ∃ e,
    xml2json_toJson L body = Throw e ∧
    on_end L callback res body st =
      unguarded
        (call callback
           (AmazonMwsAPIError "Invalid JSON received from the AmazonMws API"
              (JStr body) e)
           RNull st) ∧
    (callback (trace st)
       (AmazonMwsAPIError "Invalid JSON received from the AmazonMws API"
          (JStr body) e) RNull = None →
     on_end L callback res body st =
       Ok (perform
             (Callback
                (AmazonMwsAPIError "Invalid JSON received from the AmazonMws API"
                   (JStr body) e) RNull) st)).
Proof.
  intros Hparses Hfails.
  destruct (conversion_fails_in_toJson L body Hparses Hfails) as [e He].
  exists e. split; [done|].
  assert (on_end L callback res body st =
          unguarded
            (call callback
               (AmazonMwsAPIError "Invalid JSON received from the AmazonMws API"
                  (JStr body) e) RNull st)) as Hend.
  { unfold on_end, try_block. by rewrite He. }
  split; [done|]. intros Hret. rewrite Hend. unfold call, unguarded.
  by rewrite Hret.
Qed.

Lemma C8_witness :
  ∃ e,
    xml2json_toJson Sample.libs_parseable "<Orders><Order>" = Throw e ∧
    on_end Sample.libs_parseable returns 7 "<Orders><Order>" init_req =
      Ok (perform
            (Callback
               (AmazonMwsAPIError "Invalid JSON received from the AmazonMws API"
                  (JStr "<Orders><Order>") e) RNull) init_req).
Proof.
  destruct (C8_conversion_failure_is_an_API_error Sample.libs_parseable returns
              7 "<Orders><Order>" init_req) as (e & He & _ & Hend).
  - apply libs_parseable_parses.
  - vm_compute. exact I.
  - exists e. split; [exact He|]. apply Hend. reflexivity.
Defined.

(** The variable [response] holds the converted text by the time the
    parser runs: were the parser to throw on it, the API error would
    carry that text. *)
Lemma on_end_unparsed_text L callback res body json e st :
  xml2json_toJson L body = Ok json → JSON_parse L json = Throw e →
  on_end L callback res body st =
    unguarded
      (call callback
         (AmazonMwsAPIError "Invalid JSON received from the AmazonMws API"
            (JStr json) e) RNull st).
Proof. intros Hj Hp. unfold on_end, try_block. by rewrite Hj, Hp. Qed.

(** A parsed [null] has no properties to read: the [try] block catches
    the type error, and the API error carries the [null]. *)
Lemma on_end_null_is_an_API_error L callback res body json st :
  xml2json_toJson L body = Ok json → JSON_parse L json = Ok JNull →
  on_end L callback res body st =
    unguarded
      (call callback
         (AmazonMwsAPIError "Invalid JSON received from the AmazonMws API"
            JNull (TypeError "Cannot read property 'ErrorResponse' of null"))
         RNull st).
Proof. intros Hj Hp. unfold on_end, try_block. by rewrite Hj, Hp. Qed.

(** What follows the [try] block is not guarded: a parsed value that is
    not an object makes [Object.defineProperty] throw, and the exception
    leaves the listener. *)
Lemma on_end_primitive_throws L callback res body json z st :
  xml2json_toJson L body = Ok json → JSON_parse L json = Ok (JNum z) →
  on_end L callback res body st =
  Throw (TypeError "Object.defineProperty called on non-object").
Proof. intros Hj Hp. unfold on_end, try_block. by rewrite Hj, Hp. Qed.

(** A callback that throws on the [ErrorResponse] it is passed is
    invoked a second time for the same response, by the [catch] block,
    with an API error that carries the parsed body and what the
    callback threw. *)
Example throwing_callback_is_called_again :
  on_end Sample.libs (throws_on_value (PlainError "boom" "")) 7
    "<ErrorResponse><Code>Denied</Code></ErrorResponse>" init_req =
  Ok {| _isAborted := false; incoming := None;
        trace :=
          [Callback (EValue (JObj [("Code", JStr "Denied")])) RNull;
           Callback
             (AmazonMwsAPIError "Invalid JSON received from the AmazonMws API"
                (JObj [("ErrorResponse", JObj [("Code", JStr "Denied")])])
                (PlainError "boom" ""))
             RNull] |}.
Proof. reflexivity. Qed.

(** ** The terminal callback *)

(** The timeout handler sets the flag, then aborts, then calls back
    once; an error the transport raises while aborting finds the flag
    set and adds nothing. *)
Lemma _timeoutHandler_trace callback timeout emitted st st' :
  _timeoutHandler callback timeout emitted st = Ok st' →
  _isAborted st' = true ∧
  trace st' = (trace st ++ [SetIsAborted; Abort; timeout_callback timeout])%list.
Proof.
  unfold _timeoutHandler, abort, _errorHandler, call, unguarded.
  destruct emitted as [e|]; simpl;
    (match goal with
     | |- context [callback ?t ?a ?b] => destruct (callback t a b)
     end);
    intros [= <-]; simpl; by rewrite <-!app_assoc.
Qed.

Lemma _timeoutHandler_returns callback timeout emitted st :
  never_throws callback →
  _timeoutHandler callback timeout emitted st =
  Ok {| _isAborted := true; incoming := incoming st;
        trace :=
          (trace st ++ [SetIsAborted; Abort; timeout_callback timeout])%list |}.
Proof.
  intros Hret. unfold _timeoutHandler, abort, _errorHandler, call, unguarded.
  destruct emitted as [e|]; simpl; rewrite Hret;
    unfold perform, set_isAborted; simpl; by rewrite <-!app_assoc.
Qed.

Lemma _errorHandler_aborted callback error st :
  _isAborted st = true → _errorHandler callback error st = Ok st.
Proof. intros H. unfold _errorHandler. by rewrite H. Qed.

Lemma _errorHandler_not_aborted callback error st st' :
  _isAborted st = false →
  _errorHandler callback error st = Ok st' →
  _isAborted st' = false ∧
  trace st' =
    (trace st ++
     [Callback
        (AmazonMwsConnectionError
           "An error occurred with our connection to AmazonMws" error)
        RNull])%list.
Proof.
  intros H. unfold _errorHandler, call, unguarded. rewrite H.
  destruct (callback _ _ _); [done|]. by intros [= <-].
Qed.

(** How the [try] block is left, and with which invocations made. *)
Lemma try_block_Returned L callback response st st' :
  try_block L callback response st = Returned st' →
  ∃ er, truthy er = true ∧ callback (trace st) (EValue er) RNull = None ∧
        st' = perform (Callback (EValue er) RNull) st.
Proof.
  unfold try_block, call.
  destruct (xml2json_toJson L response) as [json|]; [|done].
  destruct (JSON_parse L json) as [parsed|]; [|done].
  destruct (get_member parsed "ErrorResponse") as [er|]; [|done].
  destruct (truthy er) eqn:Her; [|done].
  destruct (callback (trace st) (EValue er) RNull) eqn:Hcb; [done|].
  intros [= <-]. eauto.
Qed.

Lemma try_block_Caught L callback response st v e st' :
  try_block L callback response st = Caught v e st' →
  st' = st ∨
  ∃ er, truthy er = true ∧ callback (trace st) (EValue er) RNull = Some e ∧
        st' = perform (Callback (EValue er) RNull) st.
Proof.
  unfold try_block, call.
  destruct (xml2json_toJson L response) as [json|]; [|by intros [= _ _ <-]; left].
  destruct (JSON_parse L json) as [parsed|]; [|by intros [= _ _ <-]; left].
  destruct (get_member parsed "ErrorResponse") as [er|];
    [|by intros [= _ _ <-]; left].
  destruct (truthy er) eqn:Her; [|done].
  destruct (callback (trace st) (EValue er) RNull) eqn:Hcb; [|done].
  intros [= _ <- <-]. right. eauto.
Qed.

(** What the end listener adds to the trace when it completes: one
    invocation of the callback, or two when the callback threw on the
    [ErrorResponse] it was passed. *)
Lemma on_end_adds L callback res response st st' :
  on_end L callback res response st = Ok st' →
  _isAborted st' = _isAborted st ∧ incoming st' = incoming st ∧
  ((∃ err r, trace st' = (trace st ++ [Callback err r])%list ∧
             is_error_callback (Callback err r) = false ∧
             one_half (Callback err r)) ∨
   (∃ er v e,
      callback (trace st) (EValue er) RNull = Some e ∧ truthy er = true ∧
      trace st' =
        (trace st ++
         [Callback (EValue er) RNull;
          Callback
            (AmazonMwsAPIError "Invalid JSON received from the AmazonMws API"
               v e) RNull])%list)).
Proof.
  unfold on_end.
  destruct (try_block L callback response st) as [st1|v|v e st1] eqn:Htry.
  - apply try_block_Returned in Htry as (er & Her & _ & ->).
    intros [= <-]. split; [done|]. split; [done|]. left.
    eexists _, _. split; [done|]. split; [done|]. simpl. by destruct er.
  - destruct (is_object v); [|done]. unfold call, unguarded.
    destruct (callback _ _ _); [done|]. intros [= <-].
    split; [done|]. split; [done|]. left. by eexists _, _.
  - unfold call, unguarded. destruct (callback _ _ _); [done|]. intros [= <-].
    apply try_block_Caught in Htry as [->|(er & Her & Hcb & ->)].
    + split; [done|]. split; [done|]. left. by eexists _, _.
    + split; [done|]. split; [done|]. right. exists er, v, e.
      split; [done|]. split; [done|]. simpl. by rewrite <-app_assoc.
Qed.

Section Lifecycle.
Context (L : Libs) (out : outbound) (callback : callback_fn).

(** Errors that follow a timeout, however many, are all suppressed. *)
Lemma errors_after_abort errors st :
  _isAborted st = true →
  run L out callback (EvError <$> errors) st = Ok st.
Proof.
  induction errors as [|e errors IH]; intros Hst; [done|].
  simpl. rewrite _errorHandler_aborted by done. simpl. auto.
Qed.

(** A timeout raced by transport errors: one callback, the connection
    error that names the timeout. *)
Lemma timeout_then_errors_once emitted errors :
  never_throws callback →
  ∃ st,
    run L out callback (EvTimeout emitted :: (EvError <$> errors)) init_req
      = Ok st ∧
    callbacks st = [timeout_callback (armed_timeout out)].
Proof.
  intros Hret. eexists. simpl. rewrite _timeoutHandler_returns by done.
  unfold mbind, result_bind. rewrite errors_after_abort by done.
  split; [done|]. reflexivity.
Qed.

(** An error alone, and a response alone, call back once. *)
Lemma error_alone_once error :
  never_throws callback →
  ∃ st,
    run L out callback [EvError error] init_req = Ok st ∧
    length (callbacks st) = 1%nat.
Proof.
  intros Hret. eexists. simpl. unfold _errorHandler, call, unguarded. simpl.
  rewrite Hret. simpl. split; reflexivity.
Qed.

Lemma end_after_chunks res chunks response st :
  never_throws callback →
  run L out callback ((EvData <$> chunks) ++ [EvEnd])%list
    {| _isAborted := false; incoming := Some (res, response); trace := [] |}
    = Ok st →
  length (callbacks st) = 1%nat.
Proof.
  intros Hret. revert response.
  induction chunks as [|c chunks IH]; intros response.
  - simpl. unfold mbind, result_bind.
    destruct (on_end _ _ _ _ _) as [st1|] eqn:Hend; [|done]. intros [= <-].
    apply on_end_adds in Hend
      as (_ & _ & [(err & r & Htr & _)|(er & v & e & Hcb & _)]).
    + unfold callbacks. by rewrite Htr.
    + by rewrite Hret in Hcb.
  - apply IH.
Qed.

Lemma end_alone_once res chunks st :
  never_throws callback →
  run L out callback (EvResponse res :: (EvData <$> chunks) ++ [EvEnd])%list
    init_req = Ok st →
  length (callbacks st) = 1%nat.
Proof. apply end_after_chunks. Qed.

(** Whatever the events, every invocation of the callback that is made
    passes either an error or a result, never both and never neither. *)
Lemma dispatch_one_half ev st st' :
  Forall one_half (trace st) → dispatch L out callback ev st = Ok st' →
  Forall one_half (trace st').
Proof.
  intros Hst. destruct ev as [|emitted|error|res|chunk|]; simpl.
  - intros [= <-]. simpl. rewrite <-app_assoc. apply Forall_app.
    by repeat constructor.
  - intros Hd. apply _timeoutHandler_trace in Hd as [_ ->].
    apply Forall_app. by repeat constructor.
  - destruct (_isAborted st) eqn:Hab.
    + rewrite _errorHandler_aborted by done. by intros [= <-].
    + intros Hd. apply _errorHandler_not_aborted in Hd as [_ ->]; [|done].
      apply Forall_app. by repeat constructor.
  - by intros [= <-].
  - intros [= <-]. unfold on_data.
    by destruct (incoming st) as [[res response]|].
  - destruct (incoming st) as [[res response]|]; [|by intros [= <-]].
    intros (_ & _ & [(err & r & -> & _ & Hh)|(er & v & e & _ & Her & ->)])%on_end_adds.
    + apply Forall_app. by repeat constructor.
    + apply Forall_app. split; [done|].
      apply Forall_cons. split; [simpl; by destruct er|].
      by repeat constructor.
Qed.

Lemma run_one_half evs st st' :
  Forall one_half (trace st) → run L out callback evs st = Ok st' →
  Forall one_half (trace st').
Proof.
  revert st. induction evs as [|ev evs IH]; intros st Hst; simpl.
  - by intros [= <-].
  - destruct (dispatch L out callback ev st) as [st1|] eqn:Hd; [|done]. simpl.
    apply IH. by eapply dispatch_one_half.
Qed.

(** A timeout that fires between the chunks of a response and its end:
    when the end listener completes, the callback has been invoked
    twice. *)
Lemma timeout_then_end_twice emitted res chunk st :
  never_throws callback →
  run L out callback [EvResponse res; EvData chunk; EvTimeout emitted; EvEnd]
    init_req = Ok st →
  length (callbacks st) = 2%nat.
Proof.
  intros Hret. simpl. rewrite _timeoutHandler_returns by done.
  unfold mbind, result_bind. simpl.
  destruct (on_end _ _ _ _ _) as [st1|] eqn:Hend; [|done]. intros [= <-].
  apply on_end_adds in Hend
    as (_ & _ & [(err & r & Htr & _)|(er & v & e & Hcb & _)]).
  - unfold callbacks. by rewrite Htr.
  - by rewrite Hret in Hcb.
Qed.

(** The timeout handler does not look at what was delivered before it
    either: after an error it calls back again. *)
Lemma timeout_after_error_calls_back_twice error :
  never_throws callback →
  ∃ st,
    run L out callback [EvError error; EvTimeout None] init_req = Ok st ∧
    length (callbacks st) = 2%nat.
Proof.
  intros Hret. eexists. simpl. unfold _errorHandler, call, unguarded. simpl.
  rewrite Hret. simpl. rewrite _timeoutHandler_returns by done.
  split; reflexivity.
Qed.

End Lifecycle.

(** C1. The callback is not invoked exactly once on every path: the
    flag guards the error handler only. A timeout that fires while the
    body of a response is arriving aborts the request and calls back;
    the end of the aborted response then runs the decoder on the
    truncated body, and the callback is invoked a second time. *)
Theorem C1_timeout_then_end_calls_back_twice :
  ∃ h' out st,
    _request Sample.libs Sample.cfg Sample.self 1500000000000 "GET" "/Orders"
      (DRef 0%nat) JNull Sample.options
      {[0%nat := [("Action", JStr "ListOrders")]]}
    = Ok (h', out) ∧
    run Sample.libs out returns
      [EvConnect; EvResponse 7; EvData "<Orders><Order>"; EvTimeout None; EvEnd]
      init_req = Ok st ∧
    callbacks st =
      [Callback
         (AmazonMwsConnectionError
            "Request aborted due to timeout being reached (1000ms)"
            (PlainError "ETIMEDOUT" "ETIMEDOUT"))
         RNull;
       Callback
         (AmazonMwsAPIError "Invalid JSON received from the AmazonMws API"
            (JStr "json <Orders><Order>") (SyntaxError "Unexpected token"))
         RNull].
Proof. eexists _, _, _. repeat split; vm_compute; reflexivity. Qed.

(** ** Exceptions that leave the pipeline *)

(** C9. A GET request whose data is [null] or [undefined] does not reach
    the callback: the first assignment of the signing step throws, and
    the exception leaves [_request]. *)
Theorem C9_GET_without_data_throws L cfg self now path auth options h :
  _request L cfg self now "GET" path DNull auth options h =
    Throw (TypeError "Cannot set property 'AWSAccessKeyId' of null") ∧
  _request L cfg self now "GET" path DUndefined auth options h =
    Throw (TypeError "Cannot set property 'AWSAccessKeyId' of undefined").
Proof. split; reflexivity. Qed.

(** The same request with another method is served: the missing data is
    replaced by an empty object before it is serialized. *)
Lemma other_method_without_data L cfg self now method path auth options h :
  method ≠ "GET" → requestDataProcessor self = None →
  ∃ out,
    _request L cfg self now method path DNull auth options h = Ok (h, out) ∧
    written_on_connect out = stringifyRequestData L [].
Proof.
  intros Hne Hproc. eexists. rewrite _request_other by done.
  split; [done|]. simpl. unfold payload_of. by rewrite Hproc.
Qed.

(** * Further properties *)

(** ** The sorted rebuild keeps the parameters *)

(** X1. The rebuild in sorted order keeps the parameters, all but one
    name: every name other than [__proto__] has in the rebuilt object
    the value it has in the request data, a property of the request
    data named [__proto__] is not in the rebuilt object, and the rebuilt
    object has no other names and none twice. *)
Theorem sorted_same_parameters (requestData : obj) :
  (∀ k, k ≠ "__proto__" →
        get_prop k (sorted requestData) = get_prop k requestData) ∧
  get_prop "__proto__" (sorted requestData) = None ∧
  (∀ k, k ∈ keys (sorted requestData) ↔
        k ∈ keys requestData ∧ k ≠ "__proto__") ∧
  NoDup (keys (sorted requestData)).
Proof.
  split; [|split; [|split]].
  - intros k Hk. by rewrite get_sorted, decide_False.
  - by rewrite get_sorted.
  - intros k. rewrite <-!get_prop_is_Some, get_sorted.
    case_decide as Hk.
    + split; [by intros [? ?]|by intros [_ ?]].
    + split; [by auto|by intros [? _]].
  - apply fold_set_prop_NoDup. apply NoDup_nil_2.
Qed.

Lemma strictly_sorted (ks : list string) :
  StronglySorted str_le ks → NoDup ks → StronglySorted str_lt ks.
Proof.
  induction 1 as [|k ks Hs IH Hall]; intros Hnd; [constructor|].
  apply NoDup_cons in Hnd as [Hk Hnd]. constructor; [by apply IH|].
  rewrite Forall_forall in Hall. apply Forall_forall. intros k' Hin.
  destruct (proj1 (str_le_lt_or_eq k k') (Hall k' Hin)) as [Hlt|Heq];
    [done|by subst].
Qed.

Lemma StronglySorted_filter_keys (R : relation string) (P : string → Prop)
    `{∀ k, Decision (P k)} (ks : list string) :
  StronglySorted R ks → StronglySorted R (filter P ks).
Proof.
  induction 1 as [|k ks Hs IH Hall]; [constructor|].
  destruct (decide (P k)).
  - rewrite filter_cons_True by done. constructor; [done|].
    rewrite Forall_forall in Hall. apply Forall_forall.
    intros k' [_ Hin]%list_elem_of_filter. auto.
  - by rewrite filter_cons_False.
Qed.

(** X2. When the request data has distinct names none of which is an
    array index, the rebuilt object lists the names of the request data
    other than [__proto__] in ascending order, each once. *)
Theorem sorted_ascending (requestData : obj) :
  NoDup (keys requestData) →
  Forall (λ k, array_index k = None) (keys requestData) →
  keys (sorted requestData) =
    filter (λ k, k ≠ "__proto__") (sort_keys (keys requestData)) ∧
  StronglySorted str_lt (keys (sorted requestData)).
Proof.
  intros Hnd Hidx.
  assert (keys (sorted requestData) =
          filter (λ k, k ≠ "__proto__") (sort_keys (keys requestData))) as Hk.
  { rewrite sorted_entries by done. unfold keys.
    rewrite <-list_fmap_compose. apply list_fmap_id. }
  split; [done|]. rewrite Hk. apply StronglySorted_filter_keys.
  apply strictly_sorted.
  - apply Sorted_StronglySorted; [apply _|apply sort_keys_Sorted].
  - by apply sort_keys_NoDup.
Qed.

Lemma sorted_ascending_witness :
  keys (sorted [("Zeta", JStr "1"); ("__proto__", JStr "x");
                ("Action", JStr "ListOrders")]) = ["Action"; "Zeta"] ∧
  StronglySorted str_lt
    (keys (sorted [("Zeta", JStr "1"); ("__proto__", JStr "x");
                   ("Action", JStr "ListOrders")])).
Proof.
  apply (sorted_ascending [("Zeta", JStr "1"); ("__proto__", JStr "x");
                           ("Action", JStr "ListOrders")]).
  - by_computation.
  - by_computation.
Defined.

(** ** Requests that are issued *)

Lemma _request_Ok L cfg self now method path data auth options h h' out :
  _request L cfg self now method path data auth options h = Ok (h', out) →
  out = issued L cfg self method path data options h'.
Proof.
  unfold _request, issued, payload_of, headers_of.
  destruct (if String.eqb method "GET" then _ else _) as [h1|e]; [|done].
  simpl. by intros [= <- <-].
Qed.

Lemma injected_in_signed L cfg now path o k :
  k ∈ injected_keys → k ∈ keys (signed L cfg now path o).
Proof.
  intros Hk. rewrite keys_signed.
  destruct (decide (k ∈ keys o)) as [Hin|Hin].
  - apply elem_of_app; by left.
  - apply elem_of_app; right. by apply list_elem_of_filter.
Qed.

Lemma filter_all_out {A} (P : A → Prop) `{∀ x, Decision (P x)} (l : list A) :
  Forall (λ x, ¬ P x) l → filter P l = [].
Proof.
  induction 1 as [|x l Hx Hl IH]; [done|].
  by rewrite filter_cons_False.
Qed.

(** X3. Signing the same data object again, as a second GET request on
    it does, assigns the six fields where they already are: the object
    keeps its list of names, and holds the timestamp of the second
    request. *)
Theorem resigning_keeps_the_names
    L cfg self now1 now2 path1 path2 l auth options h :
  ∃ h1 out1 h2 out2,
    _request L cfg self now1 "GET" path1 (DRef l) auth options h = Ok (h1, out1) ∧
    _request L cfg self now2 "GET" path2 (DRef l) auth options h1 = Ok (h2, out2) ∧
    keys (deref h2 l) = keys (deref h1 l) ∧
    get_prop "Timestamp" (deref h2 l) = Some (JDate now2).
Proof.
  eexists _, _, _, _. rewrite !_request_GET. simpl.
  split; [done|]. split; [done|]. rewrite !deref_insert. split.
  - rewrite (keys_signed L cfg now2 path2). rewrite filter_all_out.
    + apply app_nil_r.
    + apply Forall_forall. intros k Hk Hn. apply Hn.
      by apply injected_in_signed.
  - unfold signed, inject. rewrite !get_set_prop by done.
    by repeat case_decide.
Qed.

(** X4. The host that is signed is the configured one. A resource with
    a non-empty [overrideHost] sends its GET request to that host, and
    the signature the request carries is still computed over the
    configured host. *)
Theorem overrideHost_is_not_signed
    L cfg self now path l auth options h o :
  overrideHost self = Some o → o ≠ "" →
  ∃ h' out,
    _request L cfg self now "GET" path (DRef l) auth options h = Ok (h', out) ∧
    p_host (params out) = o ∧
    get_prop "Signature" (deref h' l) =
      Some (JStr (hmac_sha256_base64 L (secret cfg)
                    (String.concat LF
                       ["GET"; host cfg; path;
                        qs_stringify L (sorted (inject cfg now (deref h l)))]))).
Proof.
  intros Ho Hne. eexists _, _. rewrite _request_GET. simpl.
  split; [done|]. split.
  - unfold issued, makeRequest. simpl. rewrite Ho.
    apply String.eqb_neq in Hne. by rewrite Hne.
  - rewrite deref_insert. apply get_signed_Signature.
Qed.

Lemma overrideHost_is_not_signed_witness :
  ∃ h' out,
    _request Sample.libs Sample.cfg
      {| requestDataProcessor := None;
         overrideHost := Some "mws-eu.amazonservices.com" |}
      1500000000000 "GET" "/Orders" (DRef 0%nat) JNull Sample.options
      {[0%nat := [("Action", JStr "ListOrders")]]}
    = Ok (h', out) ∧
    p_host (params out) = "mws-eu.amazonservices.com" ∧
    get_prop "Signature" (deref h' 0%nat) =
      Some (JStr (hmac_sha256_base64 Sample.libs (secret Sample.cfg)
                    (String.concat LF
                       ["GET"; "mws.amazonservices.com"; "/Orders";
                        qs_stringify Sample.libs
                          (sorted (inject Sample.cfg 1500000000000
                                     (deref {[0%nat := [("Action", JStr "ListOrders")]]}
                                        0%nat)))]))).
Proof.
  apply (overrideHost_is_not_signed Sample.libs Sample.cfg
           {| requestDataProcessor := None;
              overrideHost := Some "mws-eu.amazonservices.com" |}
           1500000000000 "/Orders" 0%nat JNull Sample.options
           {[0%nat := [("Action", JStr "ListOrders")]]}
           "mws-eu.amazonservices.com").
  - reflexivity.
  - discriminate.
Defined.

(** X5. An empty [overrideHost] does not override: the request goes to
    the configured host, as it does when there is no [overrideHost]. *)
Theorem empty_overrideHost_falls_back
    L cfg self now method path data auth options h h' out :
  overrideHost self = Some "" ∨ overrideHost self = None →
  _request L cfg self now method path data auth options h = Ok (h', out) →
  p_host (params out) = host cfg.
Proof.
  intros Ho Hr. apply _request_Ok in Hr as ->.
  unfold issued, makeRequest. simpl. by destruct Ho as [-> | ->].
Qed.

Lemma empty_overrideHost_falls_back_witness :
  ∃ h' out,
    _request Sample.libs Sample.cfg
      {| requestDataProcessor := None; overrideHost := Some "" |}
      1500000000000 "POST" "/Orders" DNull JNull Sample.options ∅
    = Ok (h', out) ∧
    p_host (params out) = "mws.amazonservices.com".
Proof.
  eexists _, _. split; [reflexivity|].
  apply (empty_overrideHost_falls_back Sample.libs Sample.cfg
           {| requestDataProcessor := None; overrideHost := Some "" |}
           1500000000000 "POST" "/Orders" DNull JNull Sample.options ∅ ∅).
  - by left.
  - reflexivity.
Defined.

(** X6. For a method other than GET and no data processor, a request
    without data ([null] or [undefined]) is the request with an empty
    data object: the same store, the same parameters, headers and
    payload. *)
Theorem absent_data_is_empty_data
    L cfg self now method path l auth options h :
  method ≠ "GET" → requestDataProcessor self = None → deref h l = [] →
  _request L cfg self now method path DNull auth options h =
    _request L cfg self now method path (DRef l) auth options h ∧
  _request L cfg self now method path DUndefined auth options h =
    _request L cfg self now method path (DRef l) auth options h ∧
  ∃ out,
    _request L cfg self now method path (DRef l) auth options h = Ok (h, out) ∧
    written_on_connect out = stringifyRequestData L [] ∧
    p_path (params out) = path.
Proof.
  intros Hne Hproc Hempty. rewrite !_request_other by done.
  unfold issued, payload_of. rewrite Hproc. simpl. rewrite Hempty.
  split; [done|]. split; [done|]. eexists. split; [done|]. split; [done|].
  simpl. apply String.eqb_neq in Hne. by rewrite Hne.
Qed.

Lemma absent_data_is_empty_data_witness :
  _request Sample.libs Sample.cfg Sample.self 1500000000000 "POST" "/Orders"
    DNull JNull Sample.options {[0%nat := []]} =
  _request Sample.libs Sample.cfg Sample.self 1500000000000 "POST" "/Orders"
    (DRef 0%nat) JNull Sample.options {[0%nat := []]}.
Proof.
  apply (absent_data_is_empty_data Sample.libs Sample.cfg Sample.self
           1500000000000 "POST" "/Orders" 0%nat JNull Sample.options
           {[0%nat := []]}).
  - discriminate.
  - reflexivity.
  - reflexivity.
Defined.

(** ** Headers *)

(** Assigning the properties of [source] to a target that has no
    [__proto__] of its own: the target gets every one of them but a
    [__proto__], which goes to the setter. *)
Lemma get_objectAssign (target source : obj) k :
  NoDup (keys source) → "__proto__" ∉ keys target →
  get_prop k (objectAssign target source) =
  match (if decide (k = "__proto__") then None else get_prop k source) with
  | Some v => Some v
  | None => get_prop k target
  end.
Proof.
  unfold objectAssign, keys. revert target.
  induction source as [|[k0 v0] source IH]; intros target Hnd Ht.
  { by case_decide. }
  rewrite fmap_cons in Hnd. apply NoDup_cons in Hnd as [Hk0 Hnd].
  cbn [fold_left get_prop fst snd]. rewrite IH; [|done|]; last first.
  { intros Hin. destruct (decide (k0 = "__proto__")) as [->|Hp0].
    - by rewrite set_prop_proto in Hin.
    - by apply keys_set_prop_incl in Hin as [?|?]. }
  destruct (decide (k = "__proto__")) as [->|Hp].
  - destruct (decide (k0 = "__proto__")) as [->|Hp0].
    + by rewrite set_prop_proto.
    + by rewrite get_set_prop_ne.
  - destruct (String.eqb_spec k k0) as [->|Hne].
    + simpl in Hk0. apply (proj2 (get_prop_None k0 source)) in Hk0.
      rewrite Hk0. by apply get_set_prop_eq.
    + destruct (get_prop k source); [done|]. by apply get_set_prop_ne.
Qed.

Lemma headers_of_lookup L options requestData k :
  NoDup (keys (default [] (headers options))) →
  get_prop k (headers_of L options requestData) =
  match (if decide (k = "__proto__") then None
         else get_prop k (default [] (headers options))) with
  | Some v => Some v
  | None => get_prop k (computed_headers L requestData)
  end.
Proof.
  intros Hnd. unfold headers_of. destruct (headers options) as [extra|]; simpl.
  - apply get_objectAssign; [done|by_computation].
  - by case_decide.
Qed.

(** X7. The caller's headers are merged over the computed ones: in the
    headers of a request that is issued, a name the caller gave has the
    caller's value, and any other name has the computed value, which is
    [text/xml] for [Accept] and [Content-Type] and the digest of the
    payload for [Content-MD5]. The one name that is not taken over from
    the caller is [__proto__]: assigning it stores nothing. *)
Theorem headers_merged_over_computed
    L cfg self now method path data auth options h h' out k :
  NoDup (keys (default [] (headers options))) →
  _request L cfg self now method path data auth options h = Ok (h', out) →
  get_prop k (p_headers (params out)) =
  match (if decide (k = "__proto__") then None
         else get_prop k (default [] (headers options))) with
  | Some v => Some v
  | None => get_prop k (computed_headers L (written_on_connect out))
  end.
Proof.
  intros Hnd Hr. apply _request_Ok in Hr as ->.
  unfold issued, makeRequest. simpl. by apply headers_of_lookup.
Qed.

Lemma headers_merged_over_computed_witness :
  ∃ h' out,
    _request Sample.libs Sample.cfg Sample.self 1500000000000 "POST" "/Orders"
      DNull JNull
      {| headers := Some [("Accept", JStr "application/xml");
                          ("X-Trace", JStr "1")] |} ∅
    = Ok (h', out) ∧
    get_prop "Accept" (p_headers (params out)) = Some (JStr "application/xml") ∧
    get_prop "Content-Type" (p_headers (params out)) = Some (JStr "text/xml").
Proof.
  eexists _, _. split; [reflexivity|]. split.
  - rewrite (headers_merged_over_computed Sample.libs Sample.cfg Sample.self
               1500000000000 "POST" "/Orders" DNull JNull
               {| headers := Some [("Accept", JStr "application/xml");
                                   ("X-Trace", JStr "1")] |} ∅ ∅ _ "Accept");
      [reflexivity|by_computation|reflexivity].
  - rewrite (headers_merged_over_computed Sample.libs Sample.cfg Sample.self
               1500000000000 "POST" "/Orders" DNull JNull
               {| headers := Some [("Accept", JStr "application/xml");
                                   ("X-Trace", JStr "1")] |} ∅ ∅ _ "Content-Type");
      [reflexivity|by_computation|reflexivity].
Defined.

(** ** Any sequence of events *)

Section Events.
Context (L : Libs) (out : outbound) (callback : callback_fn).

Lemma run_app evs1 evs2 st :
  run L out callback (evs1 ++ evs2)%list st =
  run L out callback evs1 st ≫= run L out callback evs2.
Proof.
  revert st. induction evs1 as [|ev evs1 IH]; intros st; [done|].
  simpl. destruct (dispatch L out callback ev st) as [st1|e]; simpl;
    [apply IH|done].
Qed.

Lemma filter_snoc_out {A} (P : A → Prop) `{∀ x, Decision (P x)} (l : list A) x :
  ¬ P x → filter P (l ++ [x])%list = filter P l.
Proof.
  intros Hx. rewrite filter_app, filter_cons_False by done.
  by rewrite filter_nil, app_nil_r.
Qed.

Lemma filter_snoc_in {A} (P : A → Prop) `{∀ x, Decision (P x)} (l : list A) x :
  P x → filter P (l ++ [x])%list = (filter P l ++ [x])%list.
Proof. intros Hx. by rewrite filter_app, filter_cons_True by done. Qed.

(** What one event adds to the trace when its listener completes:
    nothing, the three effects of the timeout handler, the write and
    the end, one callback, or the two callbacks of an end whose first
    one threw. *)
Lemma dispatch_adds ev st st' :
  dispatch L out callback ev st = Ok st' →
  ∃ added,
    trace st' = (trace st ++ added)%list ∧
    match ev with
    | EvConnect =>
        added = [Write (written_on_connect out); End]
        ∧ _isAborted st' = _isAborted st
    | EvTimeout _ =>
        added = [SetIsAborted; Abort; timeout_callback (armed_timeout out)]
        ∧ _isAborted st' = true
    | EvError error =>
        _isAborted st' = _isAborted st ∧
        added =
          if _isAborted st then []
          else [Callback
                  (AmazonMwsConnectionError
                     "An error occurred with our connection to AmazonMws" error)
                  RNull]
    | EvResponse _ | EvData _ => added = [] ∧ _isAborted st' = _isAborted st
    | EvEnd =>
        _isAborted st' = _isAborted st ∧
        (added = [] ∨
         (∃ err res, added = [Callback err res] ∧
                     is_error_callback (Callback err res) = false) ∨
         (∃ er v e,
            callback (trace st) (EValue er) RNull = Some e ∧
            added =
              [Callback (EValue er) RNull;
               Callback
                 (AmazonMwsAPIError
                    "Invalid JSON received from the AmazonMws API" v e)
                 RNull]))
    end.
Proof.
  destruct ev as [|emitted|error|res|chunk|]; simpl.
  - intros [= <-]. eexists. split; [|done]. simpl. by rewrite <-app_assoc.
  - intros Hd. apply _timeoutHandler_trace in Hd as [? ?]. eauto.
  - destruct (_isAborted st) eqn:Hab.
    + rewrite _errorHandler_aborted by done. intros [= <-].
      exists []. by rewrite app_nil_r.
    + intros Hd. apply _errorHandler_not_aborted in Hd as [? ?]; [|done].
      eexists. split; [done|]. split; [congruence|done].
  - intros [= <-]. exists []. by rewrite app_nil_r.
  - intros [= <-]. exists []. rewrite app_nil_r. unfold on_data.
    by destruct (incoming st) as [[? ?]|].
  - destruct (incoming st) as [[res response]|].
    + intros Hd. apply on_end_adds in Hd
        as (? & _ & [(err & r & Htr & Hne & _)|(er & v & e & Hcb & _ & Htr)]).
      * eexists. split; [done|]. split; [done|]. right. left. eauto.
      * eexists. split; [done|]. split; [done|]. right. right. eauto.
    + intros [= <-]. exists []. rewrite app_nil_r. split; [done|].
      split; [done|by left].
Qed.

Lemma dispatch_io ev st st' :
  dispatch L out callback ev st = Ok st' →
  filter (λ e, is_io e = true) (trace st') =
  (filter (λ e, is_io e = true) (trace st) ++
   if is_connect ev then [Write (written_on_connect out); End] else [])%list.
Proof.
  intros Hd. apply dispatch_adds in Hd as (added & -> & Hadd).
  rewrite filter_app. f_equal.
  destruct ev as [|emitted|error|res|chunk|]; simpl.
  - by destruct Hadd as [-> _].
  - by destruct Hadd as [-> _].
  - destruct Hadd as [_ ->]. by destruct (_isAborted st).
  - by destruct Hadd as [-> _].
  - by destruct Hadd as [-> _].
  - by destruct Hadd
      as [_ [->|[(err & res & -> & _)|(er & v & e & _ & ->)]]].
Qed.

Lemma run_io evs st st' :
  run L out callback evs st = Ok st' →
  filter (λ e, is_io e = true) (trace st') =
  (filter (λ e, is_io e = true) (trace st) ++
   mjoin (replicate (length (filter (λ ev, is_connect ev = true) evs))
            [Write (written_on_connect out); End]))%list.
Proof.
  revert st. induction evs as [|ev evs IH]; intros st; simpl.
  - intros [= <-]. by rewrite app_nil_r.
  - destruct (dispatch L out callback ev st) as [st1|] eqn:Hd; [|done]. simpl.
    intros Hr. rewrite (IH _ Hr), (dispatch_io _ _ _ Hd), <-app_assoc.
    f_equal. destruct ev; simpl; try done.
Qed.

(** X8. Whatever events arrive, the payload is written by the connect
    listener and by nothing else: the writes and ends of the trace are
    one write of the payload directly followed by one end for each
    connect event, in that order. *)
Theorem payload_written_once_per_connect evs st :
  run L out callback evs init_req = Ok st →
  filter (λ e, is_io e = true) (trace st) =
  mjoin (replicate (length (filter (λ ev, is_connect ev = true) evs))
           [Write (written_on_connect out); End]).
Proof. intros Hr. by rewrite (run_io _ _ _ Hr). Qed.

Lemma written_is_payload evs st p :
  run L out callback evs init_req = Ok st → Write p ∈ trace st →
  p = written_on_connect out.
Proof.
  intros Hr Hin.
  assert (Write p ∈ filter (λ e, is_io e = true) (trace st)) as Hio
    by (by apply list_elem_of_filter).
  rewrite (run_io _ _ _ Hr) in Hio. simpl in Hio.
  induction (length _) as [|n IH]; simpl in Hio.
  - by apply elem_of_nil in Hio.
  - apply elem_of_cons in Hio as [[= ->]|Hio]; [done|].
    apply elem_of_cons in Hio as [?|Hio]; [done|auto].
Qed.

Lemma dispatch_aborted ev st st' :
  _isAborted st = true → dispatch L out callback ev st = Ok st' →
  _isAborted st' = true ∧
  filter (λ e, is_error_callback e = true) (trace st') =
  filter (λ e, is_error_callback e = true) (trace st).
Proof.
  intros Hab Hd. apply dispatch_adds in Hd as (added & -> & Hadd).
  rewrite filter_app.
  destruct ev as [|emitted|error|res|chunk|]; simpl.
  - destruct Hadd as [-> ->]. split; [done|by rewrite app_nil_r].
  - destruct Hadd as [-> ->]. split; [done|]. by rewrite app_nil_r.
  - destruct Hadd as [-> ->]. rewrite Hab. split; [done|by rewrite app_nil_r].
  - destruct Hadd as [-> ->]. split; [done|by rewrite app_nil_r].
  - destruct Hadd as [-> ->]. split; [done|by rewrite app_nil_r].
  - destruct Hadd
      as [-> [->|[(err & res & -> & Hne)|(er & v & e & _ & ->)]]];
      (split; [done|]); [by rewrite app_nil_r| |by rewrite app_nil_r].
    rewrite filter_cons_False by (by rewrite Hne). by rewrite app_nil_r.
Qed.

Lemma run_aborted evs st st' :
  _isAborted st = true → run L out callback evs st = Ok st' →
  _isAborted st' = true ∧
  filter (λ e, is_error_callback e = true) (trace st') =
  filter (λ e, is_error_callback e = true) (trace st).
Proof.
  revert st. induction evs as [|ev evs IH]; intros st Hab; simpl.
  - by intros [= <-].
  - destruct (dispatch L out callback ev st) as [st1|] eqn:Hd; [|done]. simpl.
    intros Hr. destruct (dispatch_aborted _ _ _ Hab Hd) as [Hab1 Heq1].
    destruct (IH _ Hab1 Hr) as [? ?]. split; [done|congruence].
Qed.

(** X9. Once the timeout has fired, no transport error is reported any
    more, whatever events follow and in whatever order: the error
    callbacks of the whole run are those made before the timeout. *)
Theorem no_error_callback_after_timeout evs1 emitted evs2 st1 st2 :
  run L out callback evs1 init_req = Ok st1 →
  run L out callback (evs1 ++ EvTimeout emitted :: evs2)%list init_req = Ok st2 →
  filter (λ e, is_error_callback e = true) (trace st2) =
  filter (λ e, is_error_callback e = true) (trace st1).
Proof.
  intros H1 H2. rewrite run_app, H1 in H2. simpl in H2.
  destruct (_timeoutHandler callback (armed_timeout out) emitted st1)
    as [st1'|] eqn:Ht; [|done]. simpl in H2.
  apply _timeoutHandler_trace in Ht as [Hab Htr].
  destruct (run_aborted _ _ _ Hab H2) as [_ ->].
  rewrite Htr, filter_app. by rewrite app_nil_r.
Qed.

(** What one event adds to the number of invocations: at most one for
    a timeout or an error, at most two for an end, and at most one for
    an end when the callback returns from every invocation. *)
Lemma dispatch_bound ev st st' :
  dispatch L out callback ev st = Ok st' →
  (length (callbacks st') ≤
   length (callbacks st) + (if is_terminal ev then 1 else 0)
   + (if is_end_event ev then 1 else 0))%nat ∧
  (never_throws callback →
   length (callbacks st') ≤
   length (callbacks st) + (if is_terminal ev then 1 else 0))%nat.
Proof.
  intros Hd. apply dispatch_adds in Hd as (added & Htr & Hadd).
  unfold callbacks. rewrite Htr, filter_app, length_app.
  destruct ev as [|emitted|error|res|chunk|]; simpl.
  - destruct Hadd as [-> _]. simpl. lia.
  - destruct Hadd as [-> _]. simpl. lia.
  - destruct Hadd as [_ ->]. destruct (_isAborted st); simpl; lia.
  - destruct Hadd as [-> _]. simpl. lia.
  - destruct Hadd as [-> _]. simpl. lia.
  - destruct Hadd
      as [_ [->|[(err & res & -> & _)|(er & v & e & Hcb & ->)]]];
      simpl; [lia|lia|].
    split; [lia|]. intros Hret. by rewrite Hret in Hcb.
Qed.

(** X10. Connecting and receiving the response and its chunks invoke
    nothing; a timeout and an error event invoke the callback at most
    once each; the end of a response invokes it at most twice, the
    second time because the first invocation threw inside the [try]
    block. So a callback that returns from every invocation is never
    invoked more often than there are terminal events (timeouts,
    errors, ends of a response), and any callback at most once more for
    each end. *)
Theorem callbacks_bounded_by_terminal_events evs st :
  run L out callback evs init_req = Ok st →
  (length (callbacks st) ≤
   length (filter (λ ev, is_terminal ev = true) evs)
   + length (filter (λ ev, is_end_event ev = true) evs))%nat ∧
  (never_throws callback →
   length (callbacks st) ≤
   length (filter (λ ev, is_terminal ev = true) evs))%nat.
Proof.
  change (length (filter (λ ev, is_terminal ev = true) evs)) with
    (length (callbacks init_req)
     + length (filter (λ ev, is_terminal ev = true) evs))%nat.
  generalize init_req. intros st0. revert st0.
  induction evs as [|ev evs IH]; intros st0; simpl.
  - intros [= <-]. simpl. lia.
  - destruct (dispatch L out callback ev st0) as [st1|] eqn:Hd; [|done]. simpl.
    intros Hr. destruct (IH _ Hr) as [Hle Hle'].
    destruct (dispatch_bound _ _ _ Hd) as [Hb Hb'].
    assert (length (filter (λ ev, is_terminal ev = true) (ev :: evs)) =
            ((if is_terminal ev then 1 else 0)
             + length (filter (λ ev, is_terminal ev = true) evs))%nat) as ->.
    { destruct (is_terminal ev) eqn:Ht;
        [by rewrite filter_cons_True|by rewrite filter_cons_False by (by rewrite Ht)]. }
    assert (length (filter (λ ev, is_end_event ev = true) (ev :: evs)) =
            ((if is_end_event ev then 1 else 0)
             + length (filter (λ ev, is_end_event ev = true) evs))%nat) as ->.
    { destruct (is_end_event ev) eqn:Ht;
        [by rewrite filter_cons_True|by rewrite filter_cons_False by (by rewrite Ht)]. }
    split; [lia|]. intros Hret. specialize (Hle' Hret). specialize (Hb' Hret).
    lia.
Qed.

End Events.

Lemma payload_written_once_per_connect_witness :
  ∃ st,
    run Sample.libs Demo.post returns
      [EvConnect; EvResponse 7; EvData "<Orders/>"; EvEnd] init_req = Ok st ∧
    filter (λ e, is_io e = true) (trace st) = [Write "Action=ListOrders"; End].
Proof.
  eexists. split; [reflexivity|].
  apply (payload_written_once_per_connect Sample.libs Demo.post returns
           [EvConnect; EvResponse 7; EvData "<Orders/>"; EvEnd]).
  reflexivity.
Defined.

Lemma no_error_callback_after_timeout_witness :
  ∃ st1 st2,
    run Sample.libs Demo.post returns
      [EvConnect; EvError (LibError "ECONNRESET")] init_req = Ok st1 ∧
    run Sample.libs Demo.post returns
      ([EvConnect; EvError (LibError "ECONNRESET")] ++
       EvTimeout None :: [EvError (LibError "socket hang up"); EvEnd])%list
      init_req = Ok st2 ∧
    filter (λ e, is_error_callback e = true) (trace st2) =
    filter (λ e, is_error_callback e = true) (trace st1).
Proof.
  eexists _, _. split; [reflexivity|]. split; [reflexivity|].
  apply (no_error_callback_after_timeout Sample.libs Demo.post returns
           [EvConnect; EvError (LibError "ECONNRESET")] None
           [EvError (LibError "socket hang up"); EvEnd]);
    reflexivity.
Defined.

Lemma callbacks_bounded_by_terminal_events_witness :
  ∃ st,
    run Sample.libs Demo.post (throws_on_value (PlainError "boom" ""))
      [EvConnect; EvResponse 7;
       EvData "<ErrorResponse><Code>Denied</Code></ErrorResponse>"; EvEnd]
      init_req = Ok st ∧
    length (callbacks st) = 2%nat ∧
    (length (callbacks st) ≤ 1 + 1)%nat.
Proof.
  eexists. split; [reflexivity|]. split; [reflexivity|].
  apply (callbacks_bounded_by_terminal_events Sample.libs Demo.post
           (throws_on_value (PlainError "boom" ""))
           [EvConnect; EvResponse 7;
            EvData "<ErrorResponse><Code>Denied</Code></ErrorResponse>"; EvEnd]).
  reflexivity.
Defined.

(** ** The digest and the payload *)

(** X11. Unless the caller's headers give a [Content-MD5] of their own,
    the [Content-MD5] header of a request that is issued is the digest
    of every payload that is ever written for it. *)
Theorem content_md5_is_digest_of_what_is_written
    L cfg self now method path data auth options h h' out callback evs st p :
  NoDup (keys (default [] (headers options))) →
  get_prop "Content-MD5" (default [] (headers options)) = None →
  _request L cfg self now method path data auth options h = Ok (h', out) →
  run L out callback evs init_req = Ok st →
  Write p ∈ trace st →
  get_prop "Content-MD5" (p_headers (params out)) = Some (JStr (md5_base64 L p)).
Proof.
  intros Hnd Hnone Hr Hrun Hin.
  rewrite (written_is_payload L out callback evs st p Hrun Hin).
  apply _request_Ok in Hr as ->.
  unfold issued, makeRequest. simpl.
  rewrite headers_of_lookup by done. rewrite decide_False by done.
  by rewrite Hnone.
Qed.

Lemma content_md5_is_digest_of_what_is_written_witness :
  ∃ h' out st,
    _request Sample.libs Sample.cfg Sample.self 1500000000000 "POST" "/Orders"
      (DRef 0%nat) JNull Sample.options Demo.store = Ok (h', out) ∧
    run Sample.libs out returns [EvConnect] init_req = Ok st ∧
    Write "Action=ListOrders" ∈ trace st ∧
    get_prop "Content-MD5" (p_headers (params out)) =
      Some (JStr (md5_base64 Sample.libs "Action=ListOrders")).
Proof.
  eexists _, _, _. split; [reflexivity|]. split; [reflexivity|].
  split; [by left|].
  eapply (content_md5_is_digest_of_what_is_written Sample.libs Sample.cfg
            Sample.self 1500000000000 "POST" "/Orders" (DRef 0%nat) JNull
            Sample.options Demo.store Demo.store Demo.post returns [EvConnect]).
  - by_computation.
  - reflexivity.
  - reflexivity.
  - reflexivity.
  - by left.
Defined.

(** ** The body of the response *)

Lemma append_nil_r (s : string) : s +:+ "" = s.
Proof.
  induction s as [|a s IH]; [done|].
  change (String a (s +:+ "") = String a s). by f_equal.
Qed.

Lemma append_assoc (s1 s2 s3 : string) :
  (s1 +:+ s2) +:+ s3 = s1 +:+ (s2 +:+ s3).
Proof.
  induction s1 as [|a s1 IH]; [done|].
  change (String a ((s1 +:+ s2) +:+ s3) = String a (s1 +:+ s2 +:+ s3)).
  by f_equal.
Qed.

Lemma concat_chunks_cons (c : string) (cs : list string) :
  String.concat "" (c :: cs) = c +:+ String.concat "" cs.
Proof. destruct cs; simpl; [by rewrite append_nil_r|done]. Qed.

Lemma run_chunks L out callback chunks evs st res response :
  incoming st = Some (res, response) →
  run L out callback ((EvData <$> chunks) ++ evs)%list st =
  run L out callback evs
    {| _isAborted := _isAborted st;
       incoming := Some (res, response +:+ String.concat "" chunks);
       trace := trace st |}.
Proof.
  revert st response. induction chunks as [|c chunks IH]; intros st response Hin.
  - simpl. rewrite append_nil_r, <-Hin. by destruct st.
  - cbn [fmap list_fmap app run dispatch]. unfold mbind, result_bind.
    unfold on_data at 1. rewrite Hin.
    rewrite (IH _ (response +:+ c)) by done.
    by rewrite concat_chunks_cons, <-append_assoc.
Qed.

Lemma run_response L out callback res chunks st :
  run L out callback (EvResponse res :: (EvData <$> chunks) ++ [EvEnd])%list st =
  on_end L callback res (String.concat "" chunks)
    {| _isAborted := _isAborted st;
       incoming := Some (res, String.concat "" chunks);
       trace := trace st |}.
Proof.
  cbn [run dispatch]. unfold mbind at 1, result_bind at 1.
  rewrite (run_chunks L out callback chunks [EvEnd] _ res "") by done. simpl.
  by destruct (on_end _ _ _ _ _).
Qed.

(** X12. The response is decoded as a whole: however the body arrives
    in chunks, the end listener runs once on their concatenation, in
    the order of arrival. *)
Theorem body_is_the_concatenation_of_chunks L out callback res chunks st :
  run L out callback (EvResponse res :: (EvData <$> chunks) ++ [EvEnd])%list st =
  on_end L callback res (String.concat "" chunks)
    {| _isAborted := _isAborted st;
       incoming := Some (res, String.concat "" chunks);
       trace := trace st |}.
Proof. apply run_response. Qed.

(** X13. A body that arrives in chunks and decodes to an object without
    a truthy [ErrorResponse] is delivered once, as the result, with a
    [null] error and with the transport response as [lastResponse];
    the listener completes when the callback returns from that
    invocation, and what the callback throws leaves the listener. *)
Theorem chunked_body_is_delivered_once L out callback res chunks json o :
  xml2json_toJson L (String.concat "" chunks) = Ok json →
  JSON_parse L json = Ok (JObj o) →
  truthy (read_prop "ErrorResponse" o) = false →
  match callback [] ENull (RResponse (JObj o) res) with
  | None =>
      ∃ st,
        run L out callback
          (EvResponse res :: (EvData <$> chunks) ++ [EvEnd])%list init_req
          = Ok st ∧
        callbacks st = [Callback ENull (RResponse (JObj o) res)]
  | Some e =>
      run L out callback
        (EvResponse res :: (EvData <$> chunks) ++ [EvEnd])%list init_req
        = Throw e
  end.
Proof.
  intros Hj Hp Hf. rewrite run_response.
  unfold on_end, try_block, call, unguarded. rewrite Hj, Hp. simpl.
  rewrite Hf. simpl. destruct (callback _ _ _); [done|]. by eexists.
Qed.

Lemma chunked_body_is_delivered_once_witness :
  ∃ st,
    run Sample.libs Demo.post returns
      (EvResponse 7 :: (EvData <$> ["<Ord"; "ers"; "/>"]) ++ [EvEnd])%list
      init_req = Ok st ∧
    callbacks st = [Callback ENull (RResponse (JObj [("Orders", JObj [])]) 7)].
Proof.
  apply (chunked_body_is_delivered_once Sample.libs Demo.post returns 7
           ["<Ord"; "ers"; "/>"] "json <Orders/>" [("Orders", JObj [])]);
    reflexivity.
Defined.

(** ** The readiness signal *)

(** X14. The payload is written on the readiness signal of the
    transport that was selected and on no other: with the protocol
    [http] on [connect], with any other protocol on [secureConnect]. *)
Theorem payload_waits_for_the_selected_transport
    L cfg self now method path data auth options h h' out callback st :
  _request L cfg self now method path data auth options h = Ok (h', out) →
  on_socket_event L out callback
    (if String.eqb (protocol cfg) "http" then "connect" else "secureConnect") st
    = Ok (perform End (perform (Write (written_on_connect out)) st)) ∧
  on_socket_event L out callback
    (if String.eqb (protocol cfg) "http" then "secureConnect" else "connect") st
    = Ok st.
Proof.
  intros Hr. apply _request_Ok in Hr as ->.
  unfold on_socket_event, ready_event, issued, makeRequest. simpl.
  by destruct (String.eqb (protocol cfg) "http").
Qed.

Lemma payload_waits_for_the_selected_transport_witness :
  on_socket_event Sample.libs Demo.post returns "secureConnect" init_req =
    Ok (perform End (perform (Write "Action=ListOrders") init_req)) ∧
  on_socket_event Sample.libs Demo.post returns "connect" init_req =
    Ok init_req.
Proof.
  apply (payload_waits_for_the_selected_transport Sample.libs Sample.cfg
           Sample.self 1500000000000 "POST" "/Orders" (DRef 0%nat) JNull
           Sample.options Demo.store Demo.store Demo.post returns init_req).
  reflexivity.
Defined.

(** ** Paths *)

Lemma replace_backslashes_free (s : string) :
  backslash ∉ String.list_ascii_of_string (replace_backslashes s).
Proof.
  induction s as [|a s IH]; simpl; [apply not_elem_of_nil|].
  apply not_elem_of_cons. split; [|done].
  destruct (Ascii.eqb_spec a backslash) as [->|Hne]; [discriminate|congruence].
Qed.

Lemma replace_backslashes_id (s : string) :
  backslash ∉ String.list_ascii_of_string s → replace_backslashes s = s.
Proof.
  induction s as [|a s IH]; simpl; [done|].
  intros [Hne Hs]%not_elem_of_cons.
  destruct (Ascii.eqb_spec a backslash) as [->|_]; [done|].
  by rewrite IH.
Qed.

Lemma replace_backslashes_length (s : string) :
  String.length (replace_backslashes s) = String.length s.
Proof. induction s as [|a s IH]; simpl; [done|by rewrite IH]. Qed.

(** X15. A full path never contains a backslash, whatever [path.join]
    and the interpolators return; it is as long as the joined path, and
    it is the joined path itself when that has no backslash. *)
Theorem createFullPath_has_no_backslash
    path_join basePath path commandPath urlData :
  let joined :=
    path_join
      [basePath urlData; path urlData;
       match commandPath with
       | CommandFunction f => f urlData
       | CommandString s => s
       end] in
  ((backslash ∉ String.list_ascii_of_string
      (createFullPath path_join basePath path commandPath urlData)) ∧
   String.length (createFullPath path_join basePath path commandPath urlData) =
     String.length joined ∧
   (backslash ∉ String.list_ascii_of_string joined →
    createFullPath path_join basePath path commandPath urlData = joined)).
Proof.
  intros joined. unfold createFullPath. fold joined.
  auto using replace_backslashes_free, replace_backslashes_length,
    replace_backslashes_id.
Qed.

Lemma createFullPath_has_no_backslash_witness :
  createFullPath (String.concat "/") (λ _, "/Orders") (λ _, "2011-01-01")
    (CommandString "list") [] = "/Orders/2011-01-01/list".
Proof.
  apply (createFullPath_has_no_backslash (String.concat "/") (λ _, "/Orders")
           (λ _, "2011-01-01") (CommandString "list") []).
  by_computation.
Defined.

(** ** URL data *)

Lemma fold_skips_missing (o : obj) (ks : list string) (acc : obj) :
  Forall (λ k, k ∉ keys o) ks →
  fold_left
    (fun urlData i =>
       if has_prop i o then set_prop i (read_prop i o) urlData else urlData)
    ks acc = acc.
Proof.
  intros Hall. revert acc.
  induction Hall as [|k ks Hk _ IH]; intros acc; [done|].
  simpl. apply has_prop_false in Hk. rewrite Hk. apply IH.
Qed.

(** The loop copies the own properties and skips every inherited name. *)
Lemma createUrlData_own (o : obj) (inherited : list string) :
  createUrlData o inherited =
  fold_left (λ m k, set_prop k (read_prop k o) m) (keys o) [].
Proof.
  unfold createUrlData, for_in. rewrite fold_left_app.
  rewrite fold_skips_missing.
  - apply fold_left_ext_in. intros m k Hk.
    apply has_prop_true in Hk. by rewrite Hk.
  - apply Forall_forall. by intros k [? _]%list_elem_of_filter.
Qed.

(** X16. The URL data a resource hands out is a copy of its own
    properties, all but one name: every name other than [__proto__] has
    the value it has in [_urlData], a property of [_urlData] named
    [__proto__] is not copied, no name occurs twice, and what
    [_urlData] inherits is left out. *)
Theorem createUrlData_copies_own_properties (o : obj) (inherited : list string) :
  (∀ k, k ≠ "__proto__" →
        get_prop k (createUrlData o inherited) = get_prop k o) ∧
  get_prop "__proto__" (createUrlData o inherited) = None ∧
  NoDup (keys (createUrlData o inherited)) ∧
  createUrlData o inherited = createUrlData o [].
Proof.
  split; [|split; [|split]].
  - intros k Hk. rewrite createUrlData_own.
    rewrite get_fold_set_prop by apply not_elem_of_nil.
    destruct (decide (k ∈ keys o)) as [Hin|Hin].
    + rewrite decide_True by done.
      apply get_prop_is_Some in Hin as [v Hv]. unfold read_prop. by rewrite Hv.
    + rewrite decide_False by (by intros [? _]). symmetry.
      by apply get_prop_None.
  - rewrite createUrlData_own.
    rewrite get_fold_set_prop by apply not_elem_of_nil.
    by rewrite decide_False by (by intros [_ ?]).
  - rewrite createUrlData_own. apply fold_set_prop_NoDup, NoDup_nil_2.
  - by rewrite !createUrlData_own.
Qed.

Lemma entries_of_filtered_keys (x : string) (rd l : obj) :
  NoDup (keys rd) → l ⊆ rd →
  (λ k, (k, read_prop k rd)) <$> filter (λ k, k ≠ x) (keys l) =
  filter (λ kv, kv.1 ≠ x) l.
Proof.
  intros Hnd. unfold keys. induction l as [|[k v] l IH]; intros Hl; [done|].
  assert (read_prop k rd = v) as Hv.
  { unfold read_prop. rewrite (elem_get_prop k v rd Hnd); [done|].
    apply Hl. by left. }
  assert (l ⊆ rd) as Hl' by (intros kv Hkv; apply Hl; by right).
  rewrite fmap_cons. simpl fst. destruct (decide (k ≠ x)).
  - rewrite !filter_cons_True by done. rewrite fmap_cons, Hv.
    by rewrite IH.
  - rewrite !filter_cons_False by done. by rewrite IH.
Qed.

(** X17. When the names of [_urlData] are distinct and none is an array
    index, the copy has the same properties in the same order, but for
    a property named [__proto__], which it has not. *)
Theorem createUrlData_same_order (o : obj) (inherited : list string) :
  NoDup (keys o) → Forall (λ k, array_index k = None) (keys o) →
  createUrlData o inherited = filter (λ kv, kv.1 ≠ "__proto__") o.
Proof.
  intros Hnd Hidx. rewrite createUrlData_own.
  rewrite fold_set_prop_fresh; [|done|done|].
  - simpl. by apply entries_of_filtered_keys.
  - intros k _. apply not_elem_of_nil.
Qed.

Lemma createUrlData_same_order_witness :
  createUrlData
    [("SellerId", JStr "A1"); ("__proto__", JStr "x");
     ("MarketplaceId", JStr "M1")]
    ["toString"] =
  [("SellerId", JStr "A1"); ("MarketplaceId", JStr "M1")].
Proof.
  apply (createUrlData_same_order
           [("SellerId", JStr "A1"); ("__proto__", JStr "x");
            ("MarketplaceId", JStr "M1")] ["toString"]).
  - by_computation.
  - by_computation.
Defined.

(** X18. The copy is an object of its own: it lives at another address
    than [_urlData], making it changes no object of the store, and no
    write to it reaches [_urlData]. *)
Theorem createUrlData_is_a_fresh_object
    (this_urlData : loc) (inherited : list string) (h : gmap loc obj) :
  is_Some (h !! this_urlData) →
  ∃ urlData h',
    createUrlData_in this_urlData inherited h = (urlData, h') ∧
    urlData ≠ this_urlData ∧
    deref h' urlData = createUrlData (deref h this_urlData) inherited ∧
    (∀ l, is_Some (h !! l) → h' !! l = h !! l) ∧
    (∀ k v, deref (write_prop urlData k v h') this_urlData =
            deref h this_urlData).
Proof.
  intros Hl. eexists _, _. split; [reflexivity|].
  assert (fresh (dom h) ∉ dom h) as Hfresh by apply is_fresh.
  assert (fresh (dom h) ≠ this_urlData) as Hne.
  { intros Heq. apply Hfresh. rewrite Heq. by apply elem_of_dom. }
  split; [done|]. split; [apply deref_insert|]. split.
  - intros l Hsome. apply lookup_insert_ne. intros Heq. apply Hfresh.
    rewrite Heq. by apply elem_of_dom.
  - intros k v. unfold write_prop, deref.
    by rewrite !lookup_total_insert_ne.
Qed.

Lemma createUrlData_is_a_fresh_object_witness :
  ∃ urlData h',
    createUrlData_in 0%nat [] {[0%nat := [("SellerId", JStr "A1")]]}
      = (urlData, h') ∧
    urlData ≠ 0%nat ∧
    deref (write_prop urlData "SellerId" (JStr "B2") h') 0%nat =
      [("SellerId", JStr "A1")].
Proof.
  destruct (createUrlData_is_a_fresh_object 0%nat []
              {[0%nat := [("SellerId", JStr "A1")]]})
    as (urlData & h' & Hc & Hne & _ & _ & Hw).
  - by_computation.
  - exists urlData, h'. split; [exact Hc|]. split; [exact Hne|].
    rewrite Hw. reflexivity.
Defined.

(** ** Promises and callbacks *)

(** X19. With a callback, the promise [wrapTimeout] returns never
    rejects: it settles when the given promise settles, and is then
    fulfilled with [undefined], also when the given promise rejected.
    Exactly one invocation of the callback is then set on a timer,
    behind the timers already set, with the value as the result of a
    fulfilment or the reason as the error of a rejection. Without a
    callback the given promise is returned and no timer is set. *)
Theorem wrapTimeout_defers_and_swallows (p : promise) (timers : list timer_task) :
  wrapTimeout p false timers = (p, timers) ∧
  (∀ reason, (wrapTimeout p true timers).1 ≠ Rejected reason) ∧
  ((wrapTimeout p true timers).1 = Pending ↔ p = Pending) ∧
  (wrapTimeout p true timers).2 =
    (timers ++
     match p with
     | Pending => []
     | Fulfilled value => [InvokeCallback JNull value]
     | Rejected reason => [InvokeCallback reason JNull]
     end)%list ∧
  (p ≠ Pending →
   wrapTimeout (wrapTimeout p true timers).1 true [] =
     (Fulfilled JUndefined, [InvokeCallback JNull JUndefined])).
Proof.
  destruct p as [|value|reason]; simpl; rewrite ?app_nil_r;
    repeat split; try done.
Qed.

Lemma wrapTimeout_defers_and_swallows_witness :
  wrapTimeout (wrapTimeout (Rejected (JStr "denied")) true []).1 true [] =
    (Fulfilled JUndefined, [InvokeCallback JNull JUndefined]).
Proof.
  apply (wrapTimeout_defers_and_swallows (Rejected (JStr "denied")) []).
  discriminate.
Defined.

(** ** Errors without a timeout *)

Lemma dispatch_not_aborted L out callback ev st st' :
  is_timeout_event ev = false → _isAborted st = false →
  dispatch L out callback ev st = Ok st' →
  _isAborted st' = false ∧
  length (filter (λ e, is_error_callback e = true) (trace st')) =
  (length (filter (λ e, is_error_callback e = true) (trace st)) +
   if is_error_event ev then 1 else 0)%nat.
Proof.
  intros Hev Hab Hd. apply dispatch_adds in Hd as (added & -> & Hadd).
  rewrite filter_app, length_app.
  destruct ev as [|emitted|error|res|chunk|]; simpl; try done.
  - destruct Hadd as [-> ->]. split; [done|]. simpl. lia.
  - destruct Hadd as [-> ->]. rewrite Hab. split; [done|]. simpl. lia.
  - destruct Hadd as [-> ->]. split; [done|]. simpl. lia.
  - destruct Hadd as [-> ->]. split; [done|]. simpl. lia.
  - destruct Hadd
      as [-> [->|[(err & res & -> & Hne)|(er & v & e & _ & ->)]]];
      (split; [done|]); simpl; [lia| |lia].
    rewrite filter_cons_False by (by rewrite Hne). simpl. lia.
Qed.

(** X20. As long as no timeout fires, every transport error is
    reported: the flag stays clear, and the error callbacks are as many
    as the error events, a repeated error being reported again. *)
Theorem every_error_is_reported_before_a_timeout L out callback evs st :
  Forall (λ ev, is_timeout_event ev = false) evs →
  run L out callback evs init_req = Ok st →
  _isAborted st = false ∧
  length (filter (λ e, is_error_callback e = true) (trace st)) =
  length (filter (λ ev, is_error_event ev = true) evs).
Proof.
  change (length (filter _ evs)) with
    (length (filter (λ e, is_error_callback e = true) (trace init_req)) +
     length (filter (λ ev, is_error_event ev = true) evs))%nat.
  assert (_isAborted init_req = false) as Hab by done. revert Hab.
  generalize init_req. intros st0 Hab Hall. revert st0 Hab.
  induction Hall as [|ev evs Hev _ IH]; intros st0 Hab; simpl.
  - intros [= <-]. split; [done|]. simpl. lia.
  - destruct (dispatch L out callback ev st0) as [st1|] eqn:Hd; [|done]. simpl.
    intros Hr.
    destruct (dispatch_not_aborted _ _ _ _ _ _ Hev Hab Hd) as [Hab1 Hlen1].
    destruct (IH _ Hab1 Hr) as [? Hlen]. split; [done|].
    rewrite Hlen, Hlen1. destruct (is_error_event ev) eqn:He.
    + rewrite filter_cons_True by done. simpl. lia.
    + rewrite filter_cons_False by (by rewrite He). lia.
Qed.

Lemma every_error_is_reported_before_a_timeout_witness :
  ∃ st,
    run Sample.libs Demo.post returns
      [EvConnect; EvError (LibError "ECONNRESET"); EvError (LibError "EPIPE")]
      init_req = Ok st ∧
    _isAborted st = false ∧
    length (filter (λ e, is_error_callback e = true) (trace st)) = 2%nat.
Proof.
  eexists. split; [reflexivity|].
  apply (every_error_is_reported_before_a_timeout Sample.libs Demo.post returns
           [EvConnect; EvError (LibError "ECONNRESET"); EvError (LibError "EPIPE")]).
  - by_computation.
  - reflexivity.
Defined.
